(** * lrclib-go: the proof-of-work challenge solver and the synced-lyrics codec

    A shallow embedding of [lrclib_go.go]: [verifyNonce], [solveChallenge],
    the token built by [NewPublishToken], [ParseSyncedLyrics] and the URLs
    of the requests, together with the parts of Go's standard library they
    call ([crypto/sha256], [encoding/hex], [strconv], [strings], [fmt],
    [time], [net/url]).  [FormatSyncedLyrics] does not type-check; it is
    kept as the text it is, with the names in scope around it.

    Conventions.
    - A Go [string] is a byte sequence: Rocq's [string] (a list of [ascii]).
    - A Go [[]byte] is a [list byte].
    - Go's [int], [int64] and [time.Duration] are 64-bit two's complement
      integers: a [Z] kept in range by [wrap64].
    - Go's [float64] is a [spec_float] with precision 53 and [emax] 1024.
    - An unbounded [for] loop takes a fuel argument and reports, when the
      fuel is spent, the state in which it is still running. *)

From Stdlib Require Import ZArith NArith List Bool Lia String Ascii.
From Stdlib.Strings Require Import Byte.
From Stdlib Require Import DecimalString DecimalPos DecimalZ.
From Stdlib Require Import SpecFloat.
Import ListNotations.

Local Open Scope string_scope.
Local Open Scope Z_scope.

(* ================================================================= *)
(** * Machine integers *)

Module Int64.

Definition modulus : Z := 2 ^ 64.
Definition max_int : Z := 2 ^ 63 - 1.
Definition min_int : Z := - 2 ^ 63.

(** Reduction into the two's complement range [-2^63, 2^63). *)
Definition wrap64 (z : Z) : Z := (z + 2 ^ 63) mod 2 ^ 64 - 2 ^ 63.

Definition add (a b : Z) : Z := wrap64 (a + b).
Definition mul (a b : Z) : Z := wrap64 (a * b).

(** Go's [/] and [%] on integers truncate toward zero; the one overflowing
    quotient, [min_int / -1], wraps. *)
Definition quo (a b : Z) : Z := wrap64 (Z.quot a b).
Definition rem (a b : Z) : Z := Z.rem a b.

Definition in_range (z : Z) : Prop := min_int <= z <= max_int.

End Int64.

(* ================================================================= *)
(** * Bytes *)

Definition byte_val (b : byte) : N := Byte.to_N b.

Definition byte_of_N (n : N) : byte :=
  match Byte.of_N (n mod 256) with
  | Some b => b
  | None => x00
  end.

Definition bytes_of_string (s : string) : list byte := list_byte_of_string s.

(** A byte sequence read as a big-endian unsigned integer. *)
Definition be_value (l : list byte) : N :=
  fold_left (fun acc b => (acc * 256 + byte_val b)%N) l 0%N.

(* ================================================================= *)
(** * [verifyNonce] *)

(** The body of the [for i := 0; i < len(result); i++] loop, on the bytes
    from position [i] on.  [break] leaves the loop for the final
    [return true]; so does running off the end. *)
Fixpoint verifyNonce_loop (result target : list byte) : bool :=
  match result, target with
  | r :: result', t :: target' =>
      if (byte_val t <? byte_val r)%N then false
      else if (byte_val r <? byte_val t)%N then true
      else verifyNonce_loop result' target'
  | _, _ => true
  end.

Definition verifyNonce (result target : list byte) : bool :=
  if negb (Nat.eqb (List.length result) (List.length target)) then false
  else verifyNonce_loop result target.

(* ================================================================= *)
(** * [crypto/sha256] *)

(** [sha256.Sum256] as FIPS 180-4 defines it, on 32-bit words held in [N]. *)
Module SHA256.

Local Open Scope N_scope.

Definition w32 (x : N) : N := x mod 2 ^ 32.
Definition add32 (x y : N) : N := w32 (x + y).
Definition rotr (n x : N) : N := N.lor (N.shiftr x n) (w32 (N.shiftl x (32 - n))).
Definition not32 (x : N) : N := N.lxor x (2 ^ 32 - 1).

Definition Ch (x y z : N) : N := N.lxor (N.land x y) (N.land (not32 x) z).
Definition Maj (x y z : N) : N :=
  N.lxor (N.lxor (N.land x y) (N.land x z)) (N.land y z).
Definition Sigma0 (x : N) : N := N.lxor (N.lxor (rotr 2 x) (rotr 13 x)) (rotr 22 x).
Definition Sigma1 (x : N) : N := N.lxor (N.lxor (rotr 6 x) (rotr 11 x)) (rotr 25 x).
Definition sigma0 (x : N) : N := N.lxor (N.lxor (rotr 7 x) (rotr 18 x)) (N.shiftr x 3).
Definition sigma1 (x : N) : N := N.lxor (N.lxor (rotr 17 x) (rotr 19 x)) (N.shiftr x 10).

(** The round constants: the first 32 bits of the fractional parts of the
    cube roots of the first 64 primes. *)
Definition K : list N :=
  [
    1116352408; 1899447441; 3049323471; 3921009573; 961987163; 1508970993;
    2453635748; 2870763221; 3624381080; 310598401; 607225278; 1426881987;
    1925078388; 2162078206; 2614888103; 3248222580; 3835390401; 4022224774;
    264347078; 604807628; 770255983; 1249150122; 1555081692; 1996064986;
    2554220882; 2821834349; 2952996808; 3210313671; 3336571891; 3584528711;
    113926993; 338241895; 666307205; 773529912; 1294757372; 1396182291;
    1695183700; 1986661051; 2177026350; 2456956037; 2730485921; 2820302411;
    3259730800; 3345764771; 3516065817; 3600352804; 4094571909; 275423344;
    430227734; 506948616; 659060556; 883997877; 958139571; 1322822218;
    1537002063; 1747873779; 1955562222; 2024104815; 2227730452; 2361852424;
    2428436474; 2756734187; 3204031479; 3329325298 ].

(** The eight working variables, and the chaining value. *)
Record state := mkState { sa : N; sb : N; sc : N; sd : N;
                          se : N; sf : N; sg : N; sh : N }.

(** The initial chaining value: the first 32 bits of the fractional parts of
    the square roots of the first 8 primes. *)
Definition init : state :=
  mkState 1779033703 3144134277 1013904242 2773480762
          1359893119 2600822924 528734635 1541459225.

Definition primes : list N :=
  [ 2; 3; 5; 7; 11; 13; 17; 19; 23; 29; 31; 37; 41; 43; 47; 53; 59; 61; 67;
    71; 73; 79; 83; 89; 97; 101; 103; 107; 109; 113; 127; 131; 137; 139;
    149; 151; 157; 163; 167; 173; 179; 181; 191; 193; 197; 199; 211; 223;
    227; 229; 233; 239; 241; 251; 257; 263; 269; 271; 277; 281; 283; 293;
    307; 311 ].

(** [k] is the first 32 bits of the fractional part of the [n]-th root of
    [p], whose integer part is [r]. *)
Definition is_root_fraction (n p r k : N) : bool :=
  let c := r * 2 ^ 32 + k in
  (k <? 2 ^ 32) && (c ^ n <=? p * 2 ^ (32 * n)) && (p * 2 ^ (32 * n) <? (c + 1) ^ n).

Definition K_checked : bool :=
  forallb (fun pk => existsb (fun r => is_root_fraction 3 (fst pk) r (snd pk))
                             [1; 2; 3; 4; 5; 6])
          (combine primes K)
  && (List.length K =? 64)%nat.

Definition init_checked : bool :=
  forallb (fun pk => existsb (fun r => is_root_fraction 2 (fst pk) r (snd pk))
                             [1; 2; 3; 4])
          (combine primes [sa init; sb init; sc init; sd init;
                           se init; sf init; sg init; sh init]).

(** The [width] low bytes of [x], most significant first. *)
Definition be_bytes (width : nat) (x : N) : list N :=
  map (fun i => (N.shiftr x (8 * N.of_nat i)) mod 256) (rev (seq 0 width)).

(** Padding: a 1 bit, zeros up to 56 mod 64 bytes, the bit length on 8 bytes. *)
Definition pad (msg : list N) : list N :=
  let len := N.of_nat (List.length msg) in
  let zeros := N.to_nat ((55 + 64 - len mod 64) mod 64) in
  msg ++ [128] ++ repeat 0 zeros ++ be_bytes 8 (8 * len).

Fixpoint words (bs : list N) : list N :=
  match bs with
  | b0 :: b1 :: b2 :: b3 :: bs' =>
      (N.shiftl b0 24 + N.shiftl b1 16 + N.shiftl b2 8 + b3) :: words bs'
  | _ => []
  end.

(** The message schedule: [k] more words appended to [w]. *)
Fixpoint schedule (k : nat) (w : list N) : list N :=
  match k with
  | O => w
  | S k' =>
      let t := List.length w in
      let at_ (i : nat) := nth (t - i) w 0 in
      schedule k' (w ++ [add32 (add32 (add32 (sigma1 (at_ 2%nat)) (at_ 7%nat))
                                      (sigma0 (at_ 15%nat))) (at_ 16%nat)])
  end.

Definition round (s : state) (kw : N * N) : state :=
  let t1 := add32 (add32 (add32 (add32 (sh s) (Sigma1 (se s)))
                                (Ch (se s) (sf s) (sg s))) (fst kw)) (snd kw) in
  let t2 := add32 (Sigma0 (sa s)) (Maj (sa s) (sb s) (sc s)) in
  mkState (add32 t1 t2) (sa s) (sb s) (sc s) (add32 (sd s) t1) (se s) (sf s) (sg s).

Definition compress (h : state) (block : list N) : state :=
  let w := schedule 48 block in
  let s := fold_left round (combine K w) h in
  mkState (add32 (sa h) (sa s)) (add32 (sb h) (sb s))
          (add32 (sc h) (sc s)) (add32 (sd h) (sd s))
          (add32 (se h) (se s)) (add32 (sf h) (sf s))
          (add32 (sg h) (sg s)) (add32 (sh h) (sh s)).

(** One block of sixteen words at a time; [n] bounds the number of blocks. *)
Fixpoint blocks (n : nat) (ws : list N) (h : state) : state :=
  match n, ws with
  | S n', _ :: _ => blocks n' (skipn 16 ws) (compress h (firstn 16 ws))
  | _, _ => h
  end.

Definition digest (h : state) : list byte :=
  map byte_of_N
      (be_bytes 4 (sa h) ++ be_bytes 4 (sb h) ++ be_bytes 4 (sc h) ++
       be_bytes 4 (sd h) ++ be_bytes 4 (se h) ++ be_bytes 4 (sf h) ++
       be_bytes 4 (sg h) ++ be_bytes 4 (sh h)).

Definition Size : nat := 32.

Definition Sum256 (data : list byte) : list byte :=
  let ws := words (pad (map byte_val data)) in
  digest (blocks (List.length ws) ws init).

End SHA256.

Definition Sum256 := SHA256.Sum256.
Arguments Sum256 : simpl never.

(* ================================================================= *)
(** * Results of running Go code *)

(** A run-time panic; the program can only raise the slice-bounds one. *)
Inductive panic : Type :=
  | SliceBoundsOutOfRange (low high : Z).

(** What a call that may panic produces. *)
Inductive result (A : Type) : Type :=
  | Ok (a : A)
  | Panics (p : panic).
Arguments Ok {A} a.
Arguments Panics {A} p.

Definition bind {A B : Type} (r : result A) (k : A -> result B) : result B :=
  match r with
  | Ok a => k a
  | Panics p => Panics p
  end.

Notation "x <- r ;; k" := (bind r (fun x => k))
  (at level 61, r at next level, right associativity).

(** What a loop without a bound has done once [fuel] iterations are spent:
    it has returned, or it is about to run its next iteration in a state. *)
Inductive run (S A : Type) : Type :=
  | Returned (a : A)
  | Running (s : S).
Arguments Returned {S A} a.
Arguments Running {S A} s.

(* ================================================================= *)
(** * [strings] and string slicing *)

Definition len (s : string) : Z := Z.of_nat (String.length s).

Fixpoint drop (n : nat) (s : string) : string :=
  match n, s with
  | S n', String _ s' => drop n' s'
  | _, _ => s
  end.

Fixpoint take (n : nat) (s : string) : string :=
  match n, s with
  | S n', String c s' => String c (take n' s')
  | _, _ => ""
  end.

(** The slice expression [s[low:high]]: it panics unless
    [0 <= low <= high <= len(s)]. *)
Definition slice (s : string) (low high : Z) : result string :=
  if ((0 <=? low) && (low <=? high) && (high <=? len s))%Z
  then Ok (take (Z.to_nat (high - low)) (drop (Z.to_nat low) s))
  else Panics (SliceBoundsOutOfRange low high).

Module Strings.

(** [strings.Index(s, sep)] for a separator of one byte: the position of its
    first occurrence, or -1. *)
Fixpoint Index (s : string) (sep : ascii) : Z :=
  match s with
  | "" => -1
  | String c s' =>
      if Ascii.eqb c sep then 0
      else let i := Index s' sep in if i =? -1 then -1 else i + 1
  end.

(** [strings.Split(s, sep)] for a separator of one byte: the pieces between
    its occurrences, one more than there are occurrences. *)
Fixpoint Split (s : string) (sep : ascii) : list string :=
  match s with
  | "" => [""]
  | String c s' =>
      if Ascii.eqb c sep then "" :: Split s' sep
      else match Split s' sep with
           | piece :: pieces => String c piece :: pieces
           | [] => [String c ""]
           end
  end.

End Strings.

(* ================================================================= *)
(** * [encoding/hex] *)

Module Hex.

Inductive error : Type :=
  | InvalidByteError (c : ascii)
  | ErrLength.

(** [reverseHexTable]: the value of a hexadecimal digit of either case. *)
Definition fromHexChar (c : ascii) : option N :=
  let n := N_of_ascii c in
  if ((48 <=? n) && (n <=? 57))%N then Some (n - 48)%N
  else if ((97 <=? n) && (n <=? 102))%N then Some (n - 87)%N
  else if ((65 <=? n) && (n <=? 70))%N then Some (n - 55)%N
  else None.

(** [hex.DecodeString]: the bytes decoded before the first error, and the
    error.  Pairs are decoded left to right; a dangling last character is
    looked at once every pair before it has been decoded. *)
Fixpoint DecodeString (s : string) : list byte * option error :=
  match s with
  | "" => ([], None)
  | String p "" =>
      match fromHexChar p with
      | None => ([], Some (InvalidByteError p))
      | Some _ => ([], Some ErrLength)
      end
  | String p (String q rest) =>
      match fromHexChar p, fromHexChar q with
      | None, _ => ([], Some (InvalidByteError p))
      | Some _, None => ([], Some (InvalidByteError q))
      | Some a, Some b =>
          let (dst, err) := DecodeString rest in
          (byte_of_N (N.lor (N.shiftl a 4) b) :: dst, err)
      end
  end.

(** [hex.EncodeToString], used to write digests down. *)
Definition EncodeToString (l : list byte) : string :=
  let digit (n : N) : ascii :=
    ascii_of_N (if n <? 10 then 48 + n else 87 + n)%N in
  fold_right (fun b s => String (digit (byte_val b / 16)%N)
                                (String (digit (byte_val b mod 16)%N) s))
             "" l.

End Hex.

(* ================================================================= *)
(** * [float64] *)

Module Float64.

Definition prec : Z := 53.
Definition emax : Z := 1024.

Definition float64 : Type := spec_float.

Definition zero : float64 := S754_zero false.
Definition add : float64 -> float64 -> float64 := SFadd prec emax.
Definition mul : float64 -> float64 -> float64 := SFmul prec emax.
Definition div : float64 -> float64 -> float64 := SFdiv prec emax.

(** The conversion [float64(n)] of an integer: the nearest float. *)
Definition of_int (n : Z) : float64 := binary_normalize prec emax n 0 false.

(** [(-1)^s * m * 10^e10] rounded to the nearest float, ties to even. *)
Definition of_decimal (s : bool) (m : positive) (e10 : Z) : float64 :=
  match e10 with
  | Zneg p =>
      let '(q, e, l) :=
        SFdiv_core_binary prec emax (Zpos m) 0 (Zpos (10 ^ p)) 0 in
      binary_round_aux prec emax s q e l
  | _ => binary_round prec emax s (m * Z.to_pos (10 ^ e10)) 0
  end.

(** [(-1)^s * m * 2^e] rounded to the nearest float, ties to even. *)
Definition of_binary (s : bool) (m : positive) (e : Z) : float64 :=
  binary_round prec emax s m e.

(** The integer part, toward zero, of a finite float. *)
Definition trunc (f : float64) : option Z :=
  match f with
  | S754_zero _ => Some 0
  | S754_finite s m e =>
      let a := match e with
               | Zneg p => Z.shiftr (Zpos m) (Zpos p)
               | _ => Z.shiftl (Zpos m) e
               end in
      Some (if s then - a else a)
  | _ => None
  end.

(** The conversions [int64(f)], [int(f)] and [time.Duration(f)].  Go leaves
    the result open when the integer part does not fit; this is what the
    amd64 instruction [CVTTSD2SQ] gives: the smallest integer. *)
Definition to_int64 (f : float64) : Z :=
  match trunc f with
  | Some z => if ((Int64.min_int <=? z) && (z <=? Int64.max_int))%Z then z
              else Int64.min_int
  | None => Int64.min_int
  end.

End Float64.

Definition float64 : Type := Float64.float64.

(* ================================================================= *)
(** * [strconv] *)

Module Strconv.

Inductive error : Type :=
  | ErrSyntax
  | ErrRange.

Definition is_digit (c : ascii) : bool :=
  ((48 <=? N_of_ascii c) && (N_of_ascii c <=? 57))%N.

Definition digit_val (c : ascii) : Z := Z.of_N (N_of_ascii c) - 48.

(** [lower(c)] is [c | ('x' - 'X')]. *)
Definition lower (c : ascii) : ascii := ascii_of_N (N.lor (N_of_ascii c) 32).

Definition is_hex_letter (c : ascii) : bool :=
  ((97 <=? N_of_ascii (lower c)) && (N_of_ascii (lower c) <=? 102))%N.

Definition hex_letter_val (c : ascii) : Z := Z.of_N (N_of_ascii (lower c)) - 97 + 10.

(** [strconv.Itoa]: the decimal digits, after a minus sign when negative. *)
Definition Itoa (i : Z) : string := NilZero.string_of_int (Z.to_int i).

(** ** [ParseInt(s, 10, 64)] *)

(** The digits of [ParseUint] in base 10: any other byte is a syntax error. *)
Fixpoint digits (s : string) (acc : Z) : option Z :=
  match s with
  | "" => Some acc
  | String c s' => if is_digit c then digits s' (acc * 10 + digit_val c) else None
  end.

Definition ParseUint10 (s : string) : Z * option error :=
  match s with
  | "" => (0, Some ErrSyntax)
  | _ => match digits s 0 with
         | None => (0, Some ErrSyntax)
         | Some un => if un <? 2 ^ 64 then (un, None) else (2 ^ 64 - 1, Some ErrRange)
         end
  end.

Definition ParseInt10 (s : string) : Z * option error :=
  match s with
  | "" => (0, Some ErrSyntax)
  | String c0 s1 =>
      let neg := Ascii.eqb c0 "-" in
      let s' := if Ascii.eqb c0 "+" || neg then s1 else s in
      match ParseUint10 s' with
      | (_, Some ErrSyntax) => (0, Some ErrSyntax)
      | (un, _) =>
          let cutoff := 2 ^ 63 in
          if negb neg && (cutoff <=? un) then (cutoff - 1, Some ErrRange)
          else if neg && (cutoff <? un) then (- cutoff, Some ErrRange)
          else (if neg then - un else un, None)
      end
  end.

(** ** [ParseFloat(s, 64)] *)

Fixpoint commonPrefixLenIgnoreCase (s prefix : string) : Z :=
  match s, prefix with
  | String c s', String p prefix' =>
      let n := N_of_ascii c in
      let c' := if ((65 <=? n) && (n <=? 90))%N then ascii_of_N (n + 32) else c in
      if Ascii.eqb c' p then 1 + commonPrefixLenIgnoreCase s' prefix' else 0
  | _, _ => 0
  end.

(** [special]: an infinity or a NaN at the start of [s], and its length. *)
Definition special (s : string) : option (float64 * Z) :=
  let inf (s : string) (sign : bool) (nsign : Z) :=
    let n := commonPrefixLenIgnoreCase s "infinity" in
    let n := if (3 <? n) && (n <? 8) then 3 else n in
    if (n =? 3) || (n =? 8) then Some (S754_infinity sign, nsign + n) else None in
  match s with
  | "" => None
  | String c0 s1 =>
      if Ascii.eqb c0 "+" || Ascii.eqb c0 "-" then inf s1 (Ascii.eqb c0 "-") 1
      else if Ascii.eqb c0 "i" || Ascii.eqb c0 "I" then inf s false 0
      else if Ascii.eqb c0 "n" || Ascii.eqb c0 "N" then
        if commonPrefixLenIgnoreCase s "nan" =? 3 then Some (S754_nan, 3) else None
      else None
  end.

(** The scanner state of [readFloat] inside the mantissa.  [mantissa] keeps
    every digit: Go keeps the first 19 and a flag for the rest, and goes
    back to the digits when they decide the rounding. *)
Record mant : Type := mkMant {
  sawdot : bool; sawdigits : bool; underscores : bool;
  nd : Z; dp : Z; mantissa : Z }.

Fixpoint readMantissa (hex : bool) (s : string) (st : mant) : mant * string :=
  match s with
  | "" => (st, s)
  | String c s' =>
      if Ascii.eqb c "_" then
        readMantissa hex s' (mkMant (sawdot st) (sawdigits st) true
                                    (nd st) (dp st) (mantissa st))
      else if Ascii.eqb c "." then
        if sawdot st then (st, s)
        else readMantissa hex s' (mkMant true (sawdigits st) (underscores st)
                                         (nd st) (nd st) (mantissa st))
      else if is_digit c then
        if Ascii.eqb c "0" && (nd st =? 0) then
          readMantissa hex s' (mkMant (sawdot st) true (underscores st)
                                      (nd st) (dp st - 1) (mantissa st))
        else
          readMantissa hex s'
            (mkMant (sawdot st) true (underscores st) (nd st + 1) (dp st)
                    (mantissa st * (if hex then 16 else 10) + digit_val c))
      else if hex && is_hex_letter c then
        readMantissa hex s'
          (mkMant (sawdot st) true (underscores st) (nd st + 1) (dp st)
                  (mantissa st * 16 + hex_letter_val c))
      else (st, s)
  end.

(** The digits and underscores of the exponent; it stops growing at 10000. *)
Fixpoint readExponent (s : string) (e : Z) (us : bool) : Z * bool * string :=
  match s with
  | "" => (e, us, s)
  | String c s' =>
      if Ascii.eqb c "_" then readExponent s' e true
      else if is_digit c then
        readExponent s' (if e <? 10000 then e * 10 + digit_val c else e) us
      else (e, us, s)
  end.

(** [underscoreOK]: underscores only between digits, or after a base prefix. *)
Fixpoint underscoreOK_loop (hex : bool) (s : string) (saw : ascii) : bool :=
  match s with
  | "" => negb (Ascii.eqb saw "_")
  | String c s' =>
      if is_digit c || (hex && is_hex_letter c) then underscoreOK_loop hex s' "0"
      else if Ascii.eqb c "_" then
        if negb (Ascii.eqb saw "0") then false else underscoreOK_loop hex s' "_"
      else if Ascii.eqb saw "_" then false
      else underscoreOK_loop hex s' "!"
  end.

Definition underscoreOK (s : string) : bool :=
  let s := match s with
           | String c s' => if Ascii.eqb c "-" || Ascii.eqb c "+" then s' else s
           | _ => s
           end in
  match s with
  | String c0 (String c1 s') =>
      if Ascii.eqb c0 "0" &&
         (Ascii.eqb (lower c1) "b" || Ascii.eqb (lower c1) "o" || Ascii.eqb (lower c1) "x")
      then underscoreOK_loop (Ascii.eqb (lower c1) "x") s' "0"
      else underscoreOK_loop false s "^"
  | _ => underscoreOK_loop false s "^"
  end.

(** What [readFloat] hands back when it accepts a prefix of [s]. *)
Record number : Type := mkNumber {
  neg : bool; hex : bool; digits_read : Z; num_mantissa : Z;
  point : Z;   (* the position of the point after the first non-zero digit *)
  consumed : Z }.

Definition readFloat (s : string) : option number :=
  match s with
  | "" => None
  | String c0 s1 =>
      let neg := Ascii.eqb c0 "-" in
      let s' := if Ascii.eqb c0 "+" || neg then s1 else s in
      let (hex, s'') :=
        match s' with
        | String d0 (String d1 (String d2 t)) =>
            if Ascii.eqb d0 "0" && Ascii.eqb (lower d1) "x"
            then (true, String d2 t) else (false, s')
        | _ => (false, s')
        end in
      let (st, rest) := readMantissa hex s'' (mkMant false false false 0 0 0) in
      if negb (sawdigits st) then None
      else
        let dp := if sawdot st then dp st else nd st in
        let dp := if hex then dp * 4 else dp in
        let ndMant := if hex then nd st * 4 else nd st in
        let finish (dp : Z) (us : bool) (rest : string) :=
          let n := len s - len rest in
          if us && negb (underscoreOK (take (Z.to_nat n) s)) then None
          else Some (mkNumber neg hex ndMant (mantissa st) dp n) in
        match rest with
        | String c r1 =>
            if Ascii.eqb (lower c) (if hex then "p" else "e") then
              match r1 with
              | "" => None
              | String c1 r2 =>
                  let esign := if Ascii.eqb c1 "-" then -1 else 1 in
                  let r := if Ascii.eqb c1 "+" || Ascii.eqb c1 "-" then r2 else r1 in
                  match r with
                  | "" => None
                  | String c2 _ =>
                      if negb (is_digit c2) then None
                      else
                        let '(e, us, rest') := readExponent r 0 (underscores st) in
                        finish (dp + e * esign) us rest'
                  end
              end
            else if hex then None
            else finish dp (underscores st) rest
        | "" => if hex then None else finish dp (underscores st) rest
        end
  end.

(** The float the accepted text denotes, correctly rounded; a value too
    large for a float is an infinity together with [ErrRange]. *)
Definition number_value (x : number) : float64 * option error :=
  match num_mantissa x with
  | Zpos m =>
      let f :=
        if hex x then Float64.of_binary (neg x) m (point x - digits_read x)
        else if 310 <? point x then S754_infinity (neg x)
        else if point x <? -330 then S754_zero (neg x)
        else Float64.of_decimal (neg x) m (point x - digits_read x) in
      match f with
      | S754_infinity _ => (f, Some ErrRange)
      | _ => (f, None)
      end
  | _ => (S754_zero (neg x), None)
  end.

Definition ParseFloat64 (s : string) : float64 * option error :=
  match special s with
  | Some (f, n) => if n =? len s then (f, None) else (Float64.zero, Some ErrSyntax)
  | None =>
      match readFloat s with
      | None => (Float64.zero, Some ErrSyntax)
      | Some x =>
          if consumed x =? len s then number_value x
          else (Float64.zero, Some ErrSyntax)
      end
  end.

(** ** [FormatFloat(f, 'f', prec, 64)] *)

(** [n] in decimal on at least [width] digits. *)
Definition pad_digits (width : nat) (n : Z) : string :=
  let d := NilZero.string_of_uint (N.to_uint (Z.to_N n)) in
  string_of_list_ascii (repeat "0"%char (width - String.length d)) ++ d.

(** The exact value times [10^prec], rounded to an integer, ties to even. *)
Definition scaled (prec : nat) (m : positive) (e : Z) : Z :=
  let p := 10 ^ Z.of_nat prec in
  match e with
  | Zneg k =>
      let den := 2 ^ Zpos k in
      let q := (Zpos m * p) / den in
      let r := (Zpos m * p) mod den in
      match 2 * r ?= den with
      | Lt => q
      | Gt => q + 1
      | Eq => if Z.even q then q else q + 1
      end
  | _ => Zpos m * 2 ^ e * p
  end.

Definition fixed (prec : nat) (sign : bool) (q : Z) : string :=
  let p := 10 ^ Z.of_nat prec in
  (if sign then "-" else "") ++ pad_digits 1 (q / p) ++
  match prec with
  | O => ""
  | _ => "." ++ pad_digits prec (q mod p)
  end.

Definition FormatFloat_f (f : float64) (prec : nat) : string :=
  match f with
  | S754_nan => "NaN"
  | S754_infinity s => if s then "-Inf" else "+Inf"
  | S754_zero s => fixed prec s 0
  | S754_finite s m e => fixed prec s (scaled prec m e)
  end.

End Strconv.

(* ================================================================= *)
(** * [fmt] *)

(** [fmt.Sprintf] for the directives the program writes: [%d] and [%f] with
    an optional [0] flag and width, [%f] also with a precision, and a plain
    [%s].  What Go prints for any other directive, or for operands left over
    at the end, is not modelled; such a directive is rendered [%!c(BADVERB)]. *)
Module Fmt.

Inductive arg : Type :=
  | Int (i : Z)
  | Str (s : string)
  | Float (f : float64).

Record spec : Type := mkSpec { zero : bool; wid : option nat; prec : option nat }.

Definition writePadding (zero : bool) (n : nat) : string :=
  string_of_list_ascii (repeat (if zero then "0" else " ")%char n).

(** [f.pad]: padding on the left up to the width. *)
Definition pad (zero : bool) (wid : option nat) (b : string) : string :=
  match wid with
  | None => b
  | Some w => writePadding zero (w - String.length b) ++ b
  end.

Definition fmtInteger (sp : spec) (i : Z) : string :=
  let negative := i <? 0 in
  let digits := NilZero.string_of_uint (N.to_uint (Z.abs_N i)) in
  let prec := match wid sp with
              | Some w => if zero sp then (if negative then w - 1 else w)%nat else O
              | None => O
              end in
  let digits := writePadding true (prec - String.length digits) ++ digits in
  pad false (wid sp) ((if negative then "-" else "") ++ digits).

Definition fmtFloat (sp : spec) (f : float64) : string :=
  let p := match prec sp with Some p => p | None => 6%nat end in
  let num := Strconv.FormatFloat_f f p in
  match f with
  | S754_nan | S754_infinity _ => pad false (wid sp) num
  | S754_zero s | S754_finite s _ _ =>
      if s then
        match wid sp with
        | Some w =>
            if zero sp && (String.length num <? w)%nat
            then "-" ++ writePadding true (w - String.length num) ++ drop 1 num
            else pad (zero sp) (wid sp) num
        | None => num
        end
      else pad (zero sp) (wid sp) num
  end.

Definition badVerb (verb : ascii) : string :=
  "%!" ++ String verb "(BADVERB)".

Definition printArg (verb : ascii) (sp : spec) (a : arg) : string :=
  match a with
  | Int i =>
      if Ascii.eqb verb "d" then
        match prec sp with None => fmtInteger sp i | Some _ => badVerb verb end
      else badVerb verb
  | Str s =>
      if Ascii.eqb verb "s" then
        match zero sp, wid sp, prec sp with
        | false, None, None => s
        | _, _, _ => badVerb verb
        end
      else badVerb verb
  | Float f => if Ascii.eqb verb "f" then fmtFloat sp f else badVerb verb
  end.

(** Where [doPrintf] is inside the format. *)
Inductive position : Type :=
  | Text
  | Flags (zero : bool)
  | Width (zero : bool) (w : nat)
  | Precision (zero : bool) (w : option nat) (p : nat).

Definition digit (c : ascii) : nat := Z.to_nat (Strconv.digit_val c).

Fixpoint doPrintf (format : string) (pos : position) (a : list arg) : string :=
  let verb (c : ascii) (sp : spec) (rest : string) :=
    if Ascii.eqb c "%" then String "%" (doPrintf rest Text a)
    else match a with
         | [] => "%!" ++ String c "(MISSING)" ++ doPrintf rest Text a
         | x :: a' => printArg c sp x ++ doPrintf rest Text a'
         end in
  match format with
  | "" => match pos with Text => "" | _ => "%!(NOVERB)" end
  | String c rest =>
      match pos with
      | Text =>
          if Ascii.eqb c "%" then doPrintf rest (Flags false) a
          else String c (doPrintf rest Text a)
      | Flags z =>
          if Ascii.eqb c "0" then doPrintf rest (Flags true) a
          else if Strconv.is_digit c then doPrintf rest (Width z (digit c)) a
          else if Ascii.eqb c "." then doPrintf rest (Precision z None 0) a
          else verb c (mkSpec z None None) rest
      | Width z w =>
          if Strconv.is_digit c then doPrintf rest (Width z (w * 10 + digit c)) a
          else if Ascii.eqb c "." then doPrintf rest (Precision z (Some w) 0) a
          else verb c (mkSpec z (Some w) None) rest
      | Precision z w p =>
          if Strconv.is_digit c then doPrintf rest (Precision z w (p * 10 + digit c)) a
          else verb c (mkSpec z w (Some p)) rest
      end
  end.

Definition Sprintf (format : string) (a : list arg) : string :=
  doPrintf format Text a.

End Fmt.

(* ================================================================= *)
(** * [time] *)

Module Time.

(** A [time.Duration] counts nanoseconds in an [int64]. *)
Definition Duration : Type := Z.

Definition Nanosecond : Duration := 1.
Definition Second : Duration := 1000000000.
Definition Minute : Duration := 60 * Second.

(** [d.Minutes()]: the whole minutes and the fraction, added as floats. *)
Definition Minutes (d : Duration) : float64 :=
  let min := Int64.quo d Minute in
  let nsec := Int64.rem d Minute in
  Float64.add (Float64.of_int min)
              (Float64.div (Float64.of_int nsec) (Float64.of_int (60 * 1000000000))).

(** [d.Seconds()]: the whole seconds and the fraction, added as floats. *)
Definition Seconds (d : Duration) : float64 :=
  let sec := Int64.quo d Second in
  let nsec := Int64.rem d Second in
  Float64.add (Float64.of_int sec)
              (Float64.div (Float64.of_int nsec) (Float64.of_int 1000000000)).

End Time.

(* ================================================================= *)
(** * The synced-lyrics codec *)

Record SyncedLyric : Type := mkSyncedLyric {
  At : Time.Duration;
  Text : string;
  Index : Z }.

(** The zero value of the struct, which [make] fills a new slice with. *)
Definition zeroSyncedLyric : SyncedLyric := mkSyncedLyric 0 "" 0.

Definition newline_char : ascii := "010"%char.

(** ** [FormatSyncedLyrics], as it is written

    The function does not type-check: its parameter has the type
    [[]SyncedLyrics], which is declared nowhere, its loop ranges over
    [syncedLyrics], which is no parameter, variable or declaration, and it
    prints the field [Lyric], which [SyncedLyric] does not have.  It has no
    behaviour to embed as a function; what is embedded is its text, with
    the names that are in scope where it stands, and the rule by which Go
    resolves an identifier. *)
Module GoSource.

Inductive type_expr : Type :=
  | TName (name : string)               (* string, SyncedLyric *)
  | TQualified (pkg name : string)      (* time.Duration *)
  | TSlice (elem : type_expr).          (* []T *)

Inductive expr : Type :=
  | Ident (name : string)
  | IntLit (n : Z)
  | StringLit (s : string)
  | Selector (x : expr) (sel : string)  (* x.sel *)
  | Call (f : expr) (args : list expr)
  | Binary (op : string) (x y : expr).

Inductive stmt : Type :=
  | Var (name : string) (t : type_expr)              (* var name t *)
  | Define (name : string) (e : expr)                (* name := e *)
  | Assign (lhs : expr) (op : string) (e : expr)     (* lhs = e, lhs += e *)
  | If (cond : expr) (body : list stmt)
  | ForRange (key value : string) (x : expr) (body : list stmt)
  | Return (e : expr).

Record func_decl : Type := mkFunc {
  func_name : string;
  params : list (string * type_expr);
  result : type_expr;
  body : list stmt }.

(** The format of the [Sprintf] call of the function. *)
Definition Sprintf_format : string := "[%d:%02.2f] %s".

(** The function, statement by statement. *)
Definition FormatSyncedLyrics : func_decl :=
  mkFunc "FormatSyncedLyrics"
    [("lyrics", TSlice (TName "SyncedLyrics"))]
    (TName "string")
    [ Var "str" (TName "string");
      ForRange "i" "lyric" (Ident "syncedLyrics")
        [ Define "newline" (StringLit "");
          If (Binary "!=" (Ident "i")
                (Binary "-" (Call (Ident "len") [Ident "syncedLyrics"]) (IntLit 1)))
             [ Assign (Ident "newline") "=" (StringLit (String newline_char "")) ];
          Define "minutes"
            (Call (Ident "int")
                  [Call (Selector (Selector (Ident "lyric") "At") "Minutes") []]);
          Define "seconds"
            (Call (Selector (Selector (Ident "lyric") "At") "Seconds") []);
          Assign (Ident "str") "+="
            (Binary "+"
               (Call (Selector (Ident "fmt") "Sprintf")
                     [StringLit Sprintf_format; Ident "minutes"; Ident "seconds";
                      Selector (Ident "lyric") "Lyric"])
               (Ident "newline")) ];
      Return (Ident "str") ].

(** The struct [SyncedLyric], field by field. *)
Definition SyncedLyric : list (string * type_expr) :=
  [("At", TQualified "time" "Duration"); ("Text", TName "string");
   ("Index", TName "int")].

Fixpoint field_type (fields : list (string * type_expr)) (name : string)
  : option type_expr :=
  match fields with
  | [] => None
  | (f, t) :: fields' => if String.eqb f name then Some t else field_type fields' name
  end.

(** The identifiers Go declares for every program. *)
Definition universe : list string :=
  [ "any"; "bool"; "byte"; "comparable"; "complex64"; "complex128"; "error";
    "float32"; "float64"; "int"; "int8"; "int16"; "int32"; "int64"; "rune";
    "string"; "uint"; "uint8"; "uint16"; "uint32"; "uint64"; "uintptr";
    "true"; "false"; "iota"; "nil";
    "append"; "cap"; "clear"; "close"; "complex"; "copy"; "delete"; "imag";
    "len"; "make"; "max"; "min"; "new"; "panic"; "print"; "println"; "real";
    "recover" ].

(** The packages the file imports, by the names it uses them under. *)
Definition imports : list string :=
  [ "bytes"; "sha256"; "hex"; "json"; "fmt"; "http"; "url"; "strconv";
    "strings"; "time" ].

(** The types and functions the package declares. *)
Definition package_scope : list string :=
  [ "SongData"; "SyncedLyric"; "FormatSyncedLyrics"; "ParseSyncedLyrics";
    "SearchSong"; "GetSong"; "GetSongByID"; "PublishSong"; "PublishError";
    "NewPublishToken"; "verifyNonce"; "solveChallenge" ].

Definition declared (scope : list string) (name : string) : bool :=
  existsb (String.eqb name) scope.

(** The identifiers of a type, an expression or a statement that resolve to
    nothing, in the order of the text.  A selector [x.sel] resolves [x]
    only: [sel] is looked up in the type of [x]. *)
Fixpoint undefined_type (scope : list string) (t : type_expr) : list string :=
  match t with
  | TName name => if declared scope name then [] else [name]
  | TQualified pkg _ => if declared scope pkg then [] else [pkg]
  | TSlice elem => undefined_type scope elem
  end.

Fixpoint undefined_expr (scope : list string) (e : expr) : list string :=
  match e with
  | Ident name => if declared scope name then [] else [name]
  | IntLit _ | StringLit _ => []
  | Selector x _ => undefined_expr scope x
  | Call f args =>
      (undefined_expr scope f ++ flat_map (undefined_expr scope) args)%list
  | Binary _ x y => (undefined_expr scope x ++ undefined_expr scope y)%list
  end.

(** A statement gives its undefined identifiers and the scope after it; a
    block opens a scope of its own. *)
Fixpoint undefined_stmt (scope : list string) (s : stmt) : list string * list string :=
  let block :=
    fix block (scope : list string) (ss : list stmt) : list string :=
      match ss with
      | [] => []
      | s' :: ss' =>
          let (errs, scope') := undefined_stmt scope s' in
          (errs ++ block scope' ss')%list
      end in
  match s with
  | Var name t => (undefined_type scope t, name :: scope)
  | Define name e => (undefined_expr scope e, name :: scope)
  | Assign lhs _ e => ((undefined_expr scope lhs ++ undefined_expr scope e)%list, scope)
  | If cond body => ((undefined_expr scope cond ++ block scope body)%list, scope)
  | ForRange key value x body =>
      ((undefined_expr scope x ++ block (key :: value :: scope) body)%list, scope)
  | Return e => (undefined_expr scope e, scope)
  end.

Fixpoint undefined_block (scope : list string) (ss : list stmt) : list string :=
  match ss with
  | [] => []
  | s :: ss' =>
      let (errs, scope') := undefined_stmt scope s in
      (errs ++ undefined_block scope' ss')%list
  end.

(** The undefined identifiers of a function of the package: those of its
    signature, then those of its body under its parameters. *)
Definition undefined (f : func_decl) : list string :=
  let outer := (package_scope ++ imports ++ universe)%list in
  (flat_map (fun p => undefined_type outer (snd p)) (params f)
   ++ undefined_type outer (result f)
   ++ undefined_block (map fst (params f) ++ outer) (body f))%list.

(** A function with an undefined identifier is rejected by the compiler. *)
Definition resolves (f : func_decl) : bool :=
  match undefined f with
  | [] => true
  | _ => false
  end.

End GoSource.

(** The assignment [s[index] = v] to an element of a slice.  The loop of
    [ParseSyncedLyrics] only stores at positions of the slice it made as
    long as [lines]; out of range, where Go panics, [store] does nothing. *)
Fixpoint store {A : Type} (s : list A) (index : nat) (v : A) : list A :=
  match s, index with
  | [], _ => []
  | _ :: s', O => v :: s'
  | x :: s', S index' => x :: store s' index' v
  end.

(** One iteration of the loop of [ParseSyncedLyrics]: [Ok None] is a
    [continue], [Ok (Some l)] the struct the iteration stores. *)
Definition parseLine (index : nat) (line : string) : result (option SyncedLyric) :=
  let i := Strings.Index line " " in
  if i =? -1 then Ok None
  else
    stamp <- slice line 0 i ;;
    lyric <- slice line i (len line) ;;
    stamp <- slice stamp 1 (len stamp - 1) ;;
    match Strings.Split stamp ":" with
    | [sep0; sep1] =>
        match Strconv.ParseInt10 sep0 with
        | (_, Some _) => Ok None
        | (minutes, None) =>
            match Strconv.ParseFloat64 sep1 with
            | (_, Some _) => Ok None
            | (seconds, None) =>
                let duration :=
                  Int64.add (Int64.mul minutes Time.Minute)
                            (Float64.to_int64
                               (Float64.mul seconds (Float64.of_int Time.Second))) in
                Ok (Some (mkSyncedLyric duration lyric (Z.of_nat index)))
            end
        end
    | _ => Ok None
    end.

Fixpoint ParseSyncedLyrics_loop (index : nat) (lines : list string)
                                (syncedLyrics : list SyncedLyric)
  : result (list SyncedLyric) :=
  match lines with
  | [] => Ok syncedLyrics
  | line :: rest =>
      entry <- parseLine index line ;;
      ParseSyncedLyrics_loop (S index) rest
        match entry with
        | None => syncedLyrics
        | Some l => store syncedLyrics index l
        end
  end.

Definition ParseSyncedLyrics (str : string) : result (list SyncedLyric) :=
  let lines := Strings.Split str newline_char in
  let syncedLyrics := repeat zeroSyncedLyric (List.length lines) in
  ParseSyncedLyrics_loop 0 lines syncedLyrics.

(* ================================================================= *)
(** * The challenge solver *)

(** The [for] loop of [solveChallenge] about to try [nonce]. *)
Fixpoint solveChallenge_loop (fuel : nat) (prefix : string) (target : list byte)
                             (nonce : Z) : run Z Z :=
  match fuel with
  | O => Running nonce
  | S fuel' =>
      let input := prefix ++ Strconv.Itoa nonce in
      let hashed := Sum256 (bytes_of_string input) in
      if verifyNonce hashed target then Returned nonce
      else solveChallenge_loop fuel' prefix target (Int64.add nonce 1)
  end.

Definition solveChallenge (fuel : nat) (prefix targetHex : string) : run Z string :=
  let nonce := 0 in
  let target := fst (Hex.DecodeString targetHex) in
  match solveChallenge_loop fuel prefix target nonce with
  | Returned nonce => Returned (Strconv.Itoa nonce)
  | Running nonce => Running nonce
  end.

(** What the service answers to the request for a challenge, as
    [NewPublishToken] sees it.  ([http.NewRequest] does not fail on the
    constant method and URL it is given.) *)
Inductive challenge_reply : Type :=
  | RequestFailed      (* [http.DefaultClient.Do] returns an error *)
  | BodyUndecodable    (* the JSON decoder returns an error *)
  | Challenge (Prefix Target : string).

Inductive token_error : Type :=
  | TransportError
  | DecodeError.

Definition NewPublishToken (fuel : nat) (reply : challenge_reply)
  : run Z (string * option token_error) :=
  match reply with
  | RequestFailed => Returned ("", Some TransportError)
  | BodyUndecodable => Returned ("", Some DecodeError)
  | Challenge Prefix Target =>
      match solveChallenge fuel Prefix Target with
      | Running nonce => Running nonce
      | Returned nonce =>
          Returned (Fmt.Sprintf "{%s}:{%s}" [Fmt.Str Prefix; Fmt.Str nonce], None)
      end
  end.

(** [nonce] is accepted for the challenge: its digest passes [verifyNonce]. *)
Definition accepts (prefix : string) (target : list byte) (nonce : Z) : bool :=
  verifyNonce (Sum256 (bytes_of_string (prefix ++ Strconv.Itoa nonce))) target.

(** The challenge of the examples: a digest is accepted when its first
    hexadecimal digit is 0. *)
Definition example_target : string :=
  "0fffffffffffffffffffffffffffffffffffffffffffffffffffffffffffffff".

(** Two lines of lyrics, the second without a timestamp. *)
Definition example_lyrics : string :=
  "[0:01.50] hello" ++ String newline_char "nospacehere".

(** How many bytes of [s] are [c]. *)
Fixpoint count_byte (c : ascii) (s : string) : nat :=
  match s with
  | "" => O
  | String a s' => (if Ascii.eqb a c then 1 else 0) + count_byte c s'
  end.

(** Every byte of [s] satisfies [P]. *)
Fixpoint all_chars (P : ascii -> bool) (s : string) : bool :=
  match s with
  | "" => true
  | String a s' => P a && all_chars P s'
  end.

(** The bytes [fmt] prints a number with: digits, the sign, the point, the
    colon of a timestamp, and the letters of [NaN], [+Inf] and [-Inf]. *)
Definition is_stamp_char (c : ascii) : bool :=
  Strconv.is_digit c || negb (Strings.Index "-.:+InfNa" c =? -1).

(* ================================================================= *)
(** * The requests *)

(** [net/url]'s [QueryEscape]. *)
Module URL.

(** [upperhex]. *)
Definition upperhex (n : N) : ascii :=
  nth (N.to_nat n) (list_ascii_of_string "0123456789ABCDEF") "0"%char.

(** [shouldEscape(c, encodeQueryComponent)]: everything but the letters,
    the digits and the marks [-], [_], [.] and [~]. *)
Definition shouldEscape (c : ascii) : bool :=
  let n := N_of_ascii c in
  negb (((97 <=? n) && (n <=? 122))%N || ((65 <=? n) && (n <=? 90))%N
        || ((48 <=? n) && (n <=? 57))%N
        || Ascii.eqb c "-" || Ascii.eqb c "_" || Ascii.eqb c "." || Ascii.eqb c "~").

(** [url.QueryEscape]: a space becomes [+], any other byte to escape
    [%] and its two hexadecimal digits in upper case. *)
Fixpoint QueryEscape (s : string) : string :=
  match s with
  | "" => ""
  | String c s' =>
      if shouldEscape c then
        if Ascii.eqb c " " then String "+" (QueryEscape s')
        else String "%" (String (upperhex (N.shiftr (N_of_ascii c) 4))
                                (String (upperhex (N.land (N_of_ascii c) 15))
                                        (QueryEscape s')))
      else String c (QueryEscape s')
  end.

(** The byte two upper-case hexadecimal digits stand for. *)
Definition unhex (x y : ascii) : ascii :=
  let v (c : ascii) : N :=
    let n := N_of_ascii c in if (n <? 65)%N then (n - 48)%N else (n - 55)%N in
  ascii_of_N (v x * 16 + v y).

(** Reading an escaped text back; it serves to show that [QueryEscape]
    loses nothing. *)
Fixpoint unescape (s : string) : string :=
  match s with
  | "" => ""
  | String c s' =>
      if Ascii.eqb c "+" then String " " (unescape s')
      else if Ascii.eqb c "%" then
        match s' with
        | String x (String y s'') => String (unhex x y) (unescape s'')
        | _ => String c (unescape s')
        end
      else String c (unescape s')
  end.

(** The bytes of an escaped text. *)
Definition is_escaped_char (c : ascii) : bool :=
  negb (shouldEscape c) || Ascii.eqb c "%" || Ascii.eqb c "+".

End URL.

(** The URL [SearchSong] requests. *)
Definition SearchSong_url (query trackName artistName albumName : string) : string :=
  Fmt.Sprintf
    "https://lrclib.net/api/search?q=%strack_name=%s&artist_name=%s&album_name=%s"
    [Fmt.Str (URL.QueryEscape query); Fmt.Str (URL.QueryEscape trackName);
     Fmt.Str (URL.QueryEscape artistName); Fmt.Str (URL.QueryEscape albumName)].

(** The URL [GetSong] requests. *)
Definition GetSong_url (trackName artistName albumName : string)
           (duration : Time.Duration) (cached : bool) : string :=
  let c := if cached then "-cached" else "" in
  Fmt.Sprintf
    "https://lrclib.net/api/get%s?track_name=%s&artist_name=%s&album_name=%s&duration=%d"
    [Fmt.Str c; Fmt.Str (URL.QueryEscape trackName);
     Fmt.Str (URL.QueryEscape artistName); Fmt.Str (URL.QueryEscape albumName);
     Fmt.Int (Int64.quo duration Time.Second)].

(** The URL [GetSongByID] requests. *)
Definition GetSongByID_url (id : string) : string :=
  Fmt.Sprintf "https://lrclib.net/api/get/%s" [Fmt.Str (URL.QueryEscape id)].

(** [PublishError] and its method [Error]. *)
Record PublishError : Type := mkPublishError {
  Code : Z;
  Name : string;
  Message : string }.

Definition PublishError_Error (p : PublishError) : string :=
  Fmt.Sprintf "%s (code %d): %s" [Fmt.Str (Name p); Fmt.Int (Code p); Fmt.Str (Message p)].

(* ================================================================= *)
(* ================================================================= *)
(** * Properties *)

(** ** Machine integers *)

Lemma wrap64_small (z : Z) : Int64.in_range z -> Int64.wrap64 z = z.
Proof.
  unfold Int64.in_range, Int64.min_int, Int64.max_int, Int64.wrap64. intros H.
  rewrite Z.mod_small; lia.
Qed.

Lemma wrap64_succ (z : Z) : Int64.add (Int64.wrap64 z) 1 = Int64.wrap64 (z + 1).
Proof.
  unfold Int64.add, Int64.wrap64.
  replace ((z + 2 ^ 63) mod 2 ^ 64 - 2 ^ 63 + 1 + 2 ^ 63)
    with ((z + 2 ^ 63) mod 2 ^ 64 + 1) by lia.
  replace (z + 1 + 2 ^ 63) with ((z + 2 ^ 63) + 1) by lia.
  rewrite Zplus_mod_idemp_l. reflexivity.
Qed.

(** ** Big-endian values *)

Lemma byte_val_bound (b : byte) : (byte_val b < 256)%N.
Proof. unfold byte_val. pose proof (Byte.to_N_bounded b). lia. Qed.

Lemma be_value_fold (l : list byte) (acc : N) :
  fold_left (fun acc b => (acc * 256 + byte_val b)%N) l acc
  = (acc * 256 ^ N.of_nat (List.length l) + be_value l)%N.
Proof.
  unfold be_value. revert acc.
  induction l as [|b l IH]; intros acc.
  - simpl. lia.
  - cbn [fold_left List.length]. rewrite IH, (IH (0 * 256 + byte_val b)%N).
    rewrite Nat2N.inj_succ, N.pow_succ_r'. lia.
Qed.

Lemma be_value_cons (b : byte) (l : list byte) :
  be_value (b :: l) = (byte_val b * 256 ^ N.of_nat (List.length l) + be_value l)%N.
Proof.
  unfold be_value at 1. cbn [fold_left]. rewrite be_value_fold. lia.
Qed.

Lemma be_value_bound (l : list byte) : (be_value l < 256 ^ N.of_nat (List.length l))%N.
Proof.
  induction l as [|b l IH].
  - cbn. lia.
  - rewrite be_value_cons. cbn [List.length].
    rewrite Nat2N.inj_succ, N.pow_succ_r'.
    pose proof (byte_val_bound b). nia.
Qed.

(** ** [verifyNonce] *)

Lemma verifyNonce_loop_le (a b : list byte) :
  List.length a = List.length b ->
  verifyNonce_loop a b = (be_value a <=? be_value b)%N.
Proof.
  revert b. induction a as [|x a IH]; intros [|y b] Hlen; try discriminate.
  - reflexivity.
  - injection Hlen as Hlen. cbn [verifyNonce_loop].
    rewrite !be_value_cons, <- Hlen.
    pose proof (be_value_bound a) as Ha.
    pose proof (be_value_bound b) as Hb. rewrite <- Hlen in Hb.
    set (P := (256 ^ N.of_nat (List.length a))%N) in *.
    destruct (N.ltb_spec (byte_val y) (byte_val x)) as [Hyx|Hyx].
    + symmetry. apply N.leb_gt. nia.
    + destruct (N.ltb_spec (byte_val x) (byte_val y)) as [Hxy|Hxy].
      * symmetry. apply N.leb_le. nia.
      * assert (byte_val x = byte_val y) as -> by lia.
        rewrite (IH b Hlen).
        destruct (N.leb_spec (be_value a) (be_value b));
          symmetry; [apply N.leb_le | apply N.leb_gt]; lia.
Qed.

Lemma verifyNonce_eq_length (a b : list byte) :
  List.length a = List.length b -> verifyNonce a b = verifyNonce_loop a b.
Proof.
  intros H. unfold verifyNonce. rewrite H, Nat.eqb_refl. reflexivity.
Qed.

Lemma verifyNonce_neq_length (a b : list byte) :
  List.length a <> List.length b -> verifyNonce a b = false.
Proof.
  intros H. unfold verifyNonce.
  apply Nat.eqb_neq in H. rewrite H. reflexivity.
Qed.

Lemma verifyNonce_true_length (a b : list byte) :
  verifyNonce a b = true -> List.length a = List.length b.
Proof.
  intros H. destruct (Nat.eq_dec (List.length a) (List.length b)) as [|Hne]; [assumption|].
  rewrite (verifyNonce_neq_length _ _ Hne) in H. discriminate.
Qed.

(** C1. On byte sequences of one length, [verifyNonce] accepts exactly when
    the first, read as a big-endian unsigned integer, is at most the second
    read the same way: the byte-wise loop with its early exit and the numeric
    comparison give the same outcome, and equal sequences are accepted. *)
Theorem verifyNonce_big_endian_le (a b : list byte) :
  List.length a = List.length b ->
  (verifyNonce a b = true <-> (be_value a <= be_value b)%N)
  /\ verifyNonce a b = (be_value a <=? be_value b)%N
  /\ (a = b -> verifyNonce a b = true).
Proof.
  intros Hlen.
  assert (verifyNonce a b = (be_value a <=? be_value b)%N) as Heq.
  { rewrite verifyNonce_eq_length by assumption. now apply verifyNonce_loop_le. }
  split; [|split].
  - rewrite Heq. apply N.leb_le.
  - exact Heq.
  - intros ->. rewrite Heq. apply N.leb_le. lia.
Qed.

Lemma verifyNonce_big_endian_le_witness :
  List.length [x01; xff; x00] = List.length [x02; x00; x00]
  /\ (verifyNonce [x01; xff; x00] [x02; x00; x00] = true
      <-> (be_value [x01; xff; x00] <= be_value [x02; x00; x00])%N).
Proof.
  split; [reflexivity|].
  apply (verifyNonce_big_endian_le [x01; xff; x00] [x02; x00; x00]). reflexivity.
Defined.

(** ** [sha256.Sum256] and the search loop *)

(** The tables of the model are the ones FIPS 180-4 defines. *)
Lemma SHA256_constants : SHA256.K_checked = true /\ SHA256.init_checked = true.
Proof. split; vm_compute; reflexivity. Qed.

(** The model on the test vectors of the standard, one and two blocks long. *)
Example Sum256_abc :
  Hex.EncodeToString (Sum256 (bytes_of_string "abc"))
  = "ba7816bf8f01cfea414140de5dae2223b00361a396177a9cb410ff61f20015ad".
Proof. vm_compute. reflexivity. Qed.

Example Sum256_two_blocks :
  Hex.EncodeToString
    (Sum256 (bytes_of_string "abcdbcdecdefdefgefghfghighijhijkijkljklmklmnlmnomnopnopq"))
  = "248d6a61d20638b8e5c026930c3e6039a33ce45964ff2167f6ecedd419db06c1".
Proof. vm_compute. reflexivity. Qed.

Lemma Sum256_length (data : list byte) : List.length (Sum256 data) = SHA256.Size.
Proof.
  unfold Sum256, SHA256.Sum256, SHA256.digest, SHA256.be_bytes.
  rewrite length_map. repeat rewrite length_app.
  repeat rewrite length_map. repeat rewrite length_rev. reflexivity.
Qed.

Lemma accepts_length (prefix : string) (target : list byte) (nonce : Z) :
  accepts prefix target nonce = true -> List.length target = SHA256.Size.
Proof.
  unfold accepts. intros H. apply verifyNonce_true_length in H.
  rewrite Sum256_length in H. congruence.
Qed.

Lemma accepts_wrong_length (prefix : string) (target : list byte) (nonce : Z) :
  List.length target <> SHA256.Size -> accepts prefix target nonce = false.
Proof.
  intros H. destruct (accepts prefix target nonce) eqn:E; [|reflexivity].
  apply accepts_length in E. contradiction.
Qed.

Lemma solveChallenge_loop_step (fuel : nat) (prefix : string) (target : list byte)
      (nonce : Z) :
  solveChallenge_loop (S fuel) prefix target nonce
  = if accepts prefix target nonce then Returned nonce
    else solveChallenge_loop fuel prefix target (Int64.add nonce 1).
Proof. reflexivity. Qed.

(** While every nonce is rejected the loop only counts, wrapping around. *)
Lemma solveChallenge_loop_spins (prefix : string) (target : list byte) :
  (forall nonce, accepts prefix target nonce = false) ->
  forall fuel z,
    solveChallenge_loop fuel prefix target (Int64.wrap64 z)
    = Running (Int64.wrap64 (z + Z.of_nat fuel)).
Proof.
  intros Hrej. induction fuel as [|fuel IH]; intros z.
  - cbn [solveChallenge_loop]. now rewrite Z.add_0_r.
  - rewrite solveChallenge_loop_step, Hrej, wrap64_succ, IH.
    f_equal. f_equal. lia.
Qed.

(** The loop started at [k] returns the first accepted nonce above [k]. *)
Lemma solveChallenge_loop_finds (prefix : string) (target : list byte) :
  forall (d : nat) (k : Z),
    0 <= k -> k + Z.of_nat d <= Int64.max_int ->
    accepts prefix target (k + Z.of_nat d) = true ->
    (forall j, k <= j < k + Z.of_nat d -> accepts prefix target j = false) ->
    forall fuel, (d < fuel)%nat ->
      solveChallenge_loop fuel prefix target k = Returned (k + Z.of_nat d).
Proof.
  induction d as [|d IH]; intros k Hk Hmax Hacc Hrej [|fuel] Hfuel; try lia.
  - rewrite solveChallenge_loop_step. rewrite Z.add_0_r in *. now rewrite Hacc.
  - rewrite solveChallenge_loop_step, Hrej by lia.
    assert (Int64.add k 1 = k + 1) as ->.
    { unfold Int64.add. apply wrap64_small.
      unfold Int64.in_range, Int64.min_int, Int64.max_int in *. lia. }
    replace (k + Z.of_nat (S d)) with (k + 1 + Z.of_nat d) in * by lia.
    apply IH; try lia; try assumption.
    intros j Hj. apply Hrej. lia.
Qed.

Lemma least_true (P : Z -> bool) (n : Z) :
  0 <= n -> P n = true ->
  exists m, 0 <= m <= n /\ P m = true /\ forall k, 0 <= k < m -> P k = false.
Proof.
  intros Hn Hp.
  assert (forall b : nat,
             (forall k, 0 <= k < Z.of_nat b -> P k = false)
             \/ exists m, 0 <= m < Z.of_nat b /\ P m = true
                          /\ forall k, 0 <= k < m -> P k = false) as Hsearch.
  { induction b as [|b [IH|(m & Hm & Hpm & Hlt)]].
    - left. intros k Hk. lia.
    - destruct (P (Z.of_nat b)) eqn:E.
      + right. exists (Z.of_nat b). repeat split; try lia; assumption.
      + left. intros k Hk.
        destruct (Z.eq_dec k (Z.of_nat b)) as [->|]; [assumption|apply IH; lia].
    - right. exists m. repeat split; try lia; assumption. }
  destruct (Hsearch (Z.to_nat n)) as [Hnone|(m & Hm & Hpm & Hlt)].
  - exists n. repeat split; try lia; [assumption|].
    intros k Hk. apply Hnone. lia.
  - exists m. repeat split; try lia; assumption.
Qed.

(** C2. For a target that decodes to the 32 bytes of a digest, whenever some
    nonce [n >= 0] is accepted, [solveChallenge] returns, in decimal, the
    smallest accepted nonce [m]: every nonce below [m] is rejected, and the
    loop, trying 0, 1, 2, ... in order, stops at [m] (any fuel above [m]
    is enough). *)
Theorem solveChallenge_returns_least_nonce (prefix targetHex : string) (n : Z) :
  List.length (fst (Hex.DecodeString targetHex)) = SHA256.Size ->
  0 <= n <= Int64.max_int ->
  accepts prefix (fst (Hex.DecodeString targetHex)) n = true ->
  exists m,
    0 <= m <= n
    /\ accepts prefix (fst (Hex.DecodeString targetHex)) m = true
    /\ (forall k, 0 <= k < m -> accepts prefix (fst (Hex.DecodeString targetHex)) k = false)
    /\ (forall fuel, (Z.to_nat m < fuel)%nat ->
          solveChallenge fuel prefix targetHex = Returned (Strconv.Itoa m)).
Proof.
  intros _ Hn Hacc.
  destruct (least_true (accepts prefix (fst (Hex.DecodeString targetHex))) n)
    as (m & Hm & Hpm & Hlt); [lia|assumption|].
  exists m. repeat split; try lia; try assumption.
  intros fuel Hfuel. unfold solveChallenge.
  pose proof (solveChallenge_loop_finds prefix (fst (Hex.DecodeString targetHex))
                (Z.to_nat m) 0) as Hloop.
  rewrite Z2Nat.id in Hloop by lia. cbn [Z.add] in Hloop.
  rewrite Hloop; [reflexivity|lia|lia|assumption| |assumption].
  intros j Hj. apply Hlt. lia.
Qed.

Lemma solveChallenge_returns_least_nonce_witness :
  exists m,
    0 <= m <= 26
    /\ accepts "abc" (fst (Hex.DecodeString example_target)) m = true
    /\ (forall k, 0 <= k < m -> accepts "abc" (fst (Hex.DecodeString example_target)) k = false)
    /\ (forall fuel, (Z.to_nat m < fuel)%nat ->
          solveChallenge fuel "abc" example_target = Returned (Strconv.Itoa m)).
Proof.
  apply (solveChallenge_returns_least_nonce "abc" example_target 26).
  - vm_compute. reflexivity.
  - unfold Int64.max_int. lia.
  - vm_compute. reflexivity.
Defined.

(** The search on the example challenge, run: 26 nonces are rejected. *)
Example solveChallenge_example :
  solveChallenge 27 "abc" example_target = Returned "26".
Proof. vm_compute. reflexivity. Qed.

(** A target of any other length: the loop never returns. *)
Lemma solveChallenge_wrong_length (prefix targetHex : string) (fuel : nat) :
  List.length (fst (Hex.DecodeString targetHex)) <> SHA256.Size ->
  solveChallenge fuel prefix targetHex = Running (Int64.wrap64 (Z.of_nat fuel)).
Proof.
  intros Hlen. unfold solveChallenge.
  change 0 with (Int64.wrap64 0) at 1.
  rewrite solveChallenge_loop_spins; [reflexivity|].
  intros nonce. now apply accepts_wrong_length.
Qed.

(** C3, as the code has it.  [solveChallenge] has no error result and drops
    the error of [hex.DecodeString]: when the bytes decoded number other
    than 32 it enters the loop all the same, rejects every nonce and is
    still running after any number of iterations. *)
Theorem solveChallenge_wrong_length_never_returns (prefix targetHex : string) :
  List.length (fst (Hex.DecodeString targetHex)) <> SHA256.Size ->
  forall fuel,
    solveChallenge fuel prefix targetHex = Running (Int64.wrap64 (Z.of_nat fuel))
    /\ forall nonce, accepts prefix (fst (Hex.DecodeString targetHex)) nonce = false.
Proof.
  intros Hlen fuel. split.
  - now apply solveChallenge_wrong_length.
  - intros nonce. now apply accepts_wrong_length.
Qed.

Lemma solveChallenge_wrong_length_never_returns_witness :
  solveChallenge 40 "abc" "0fff" = Running 40.
Proof.
  apply (solveChallenge_wrong_length_never_returns "abc" "0fff").
  vm_compute. discriminate.
Defined.

(** C3 as stated fails: on a target that does not decode the solver is
    inside its loop, about to try nonce 1000, after 1000 trials. *)
Lemma solveChallenge_fail_fast_counterexample :
  snd (Hex.DecodeString "zz") = Some (Hex.InvalidByteError "z")
  /\ solveChallenge 1000 "abc" "zz" = Running 1000.
Proof.
  split; [reflexivity|].
  rewrite solveChallenge_wrong_length; [reflexivity|].
  vm_compute. discriminate.
Qed.

(** C9. [verifyNonce] answers [false] on sequences of different lengths; so
    for a target whose decoded length is not the 32 bytes of a digest every
    nonce is rejected and the search returns none. *)
Theorem verifyNonce_rejects_other_lengths :
  (forall a b : list byte,
      List.length a <> List.length b -> verifyNonce a b = false)
  /\ (forall prefix targetHex : string,
         List.length (fst (Hex.DecodeString targetHex)) <> SHA256.Size ->
         (forall nonce, accepts prefix (fst (Hex.DecodeString targetHex)) nonce = false)
         /\ (forall fuel nonce, solveChallenge fuel prefix targetHex <> Returned nonce)).
Proof.
  split.
  - exact verifyNonce_neq_length.
  - intros prefix targetHex Hlen. split.
    + intros nonce. now apply accepts_wrong_length.
    + intros fuel nonce. rewrite solveChallenge_wrong_length by assumption.
      discriminate.
Qed.

Lemma verifyNonce_rejects_other_lengths_witness :
  verifyNonce [x00] [x00; x00] = false
  /\ accepts "abc" (fst (Hex.DecodeString "ffff")) 7 = false
  /\ solveChallenge 3 "abc" "ffff" <> Returned "0".
Proof.
  destruct verifyNonce_rejects_other_lengths as [Hverify Hsearch].
  split; [apply Hverify; cbn; discriminate|].
  destruct (Hsearch "abc" "ffff") as [Hrej Hnone]; [vm_compute; discriminate|].
  split; [apply Hrej | apply Hnone].
Defined.

(** ** [NewPublishToken] *)

(** C10. Once the challenge is solved, the token is the prefix and the
    decimal nonce, each between braces, joined by a colon. *)
Theorem NewPublishToken_format (fuel : nat) (Prefix Target nonce : string) :
  solveChallenge fuel Prefix Target = Returned nonce ->
  NewPublishToken fuel (Challenge Prefix Target)
  = Returned ("{" ++ Prefix ++ "}:{" ++ nonce ++ "}", None).
Proof.
  intros Hsolved. unfold NewPublishToken. rewrite Hsolved. reflexivity.
Qed.

Lemma NewPublishToken_format_witness :
  NewPublishToken 27 (Challenge "abc" example_target) = Returned ("{abc}:{26}", None).
Proof.
  apply (NewPublishToken_format 27 "abc" example_target "26").
  vm_compute. reflexivity.
Defined.

(** ** Strings *)

Lemma append_empty_r (s : string) : s ++ "" = s.
Proof. induction s as [|c s IH]; cbn; [reflexivity|now rewrite IH]. Qed.

Lemma take_drop (n : nat) (s : string) : take n s ++ drop n s = s.
Proof.
  revert s. induction n as [|n IH]; intros [|c s]; cbn; try reflexivity.
  now rewrite IH.
Qed.

Lemma length_drop (n : nat) (s : string) :
  String.length (drop n s) = (String.length s - n)%nat.
Proof.
  revert s. induction n as [|n IH]; intros [|c s]; cbn; try reflexivity.
  apply IH.
Qed.

Lemma take_all (n : nat) (s : string) : (String.length s <= n)%nat -> take n s = s.
Proof.
  revert s. induction n as [|n IH]; intros [|c s] H; cbn in *; try reflexivity; try lia.
  rewrite IH by lia. reflexivity.
Qed.

Lemma Index_bounds (s : string) (c : ascii) : -1 <= Strings.Index s c < len s.
Proof.
  unfold len. induction s as [|a s IH]; cbn [Strings.Index String.length].
  - lia.
  - destruct (Ascii.eqb a c); [lia|].
    destruct (Z.eqb_spec (Strings.Index s c) (-1)); lia.
Qed.

(** Where [strings.Index] finds the separator: nothing before is one. *)
Lemma Index_found (s : string) (c : ascii) :
  0 <= Strings.Index s c ->
  drop (Z.to_nat (Strings.Index s c)) s
  = String c (drop (S (Z.to_nat (Strings.Index s c))) s)
  /\ Strings.Index (take (Z.to_nat (Strings.Index s c)) s) c = -1.
Proof.
  induction s as [|a s IH]; cbn [Strings.Index]; [lia|].
  destruct (Ascii.eqb_spec a c) as [->|Hac].
  - intros _. cbn. split; reflexivity.
  - pose proof (Index_bounds s c) as Hb.
    destruct (Z.eqb_spec (Strings.Index s c) (-1)) as [|Hne]; [lia|].
    intros _. destruct IH as [IHd IHt]; [lia|].
    replace (Z.to_nat (Strings.Index s c + 1)) with (S (Z.to_nat (Strings.Index s c))) by lia.
    cbn [drop take Strings.Index]. split; [exact IHd|].
    destruct (Ascii.eqb_spec a c); [contradiction|].
    rewrite IHt. reflexivity.
Qed.

Lemma slice_prefix (s : string) (i : Z) :
  0 <= i <= len s -> slice s 0 i = Ok (take (Z.to_nat i) s).
Proof.
  intros H. unfold slice.
  replace ((0 <=? 0) && (0 <=? i) && (i <=? len s)) with true
    by (symmetry; rewrite !andb_true_iff, !Z.leb_le; lia).
  rewrite Z.sub_0_r. reflexivity.
Qed.

Lemma slice_suffix (s : string) (i : Z) :
  0 <= i <= len s -> slice s i (len s) = Ok (drop (Z.to_nat i) s).
Proof.
  intros H. unfold slice.
  replace ((0 <=? i) && (i <=? len s) && (len s <=? len s)) with true
    by (symmetry; rewrite !andb_true_iff, !Z.leb_le; lia).
  rewrite take_all; [reflexivity|].
  rewrite length_drop. unfold len in *. lia.
Qed.

(** ** Slices *)

Lemma length_store {A : Type} (s : list A) (index : nat) (v : A) :
  List.length (store s index v) = List.length s.
Proof.
  revert index. induction s as [|x s IH]; intros [|index]; cbn; try reflexivity.
  now rewrite IH.
Qed.

Lemma nth_error_store_eq {A : Type} (s : list A) (index : nat) (v : A) :
  (index < List.length s)%nat -> nth_error (store s index v) index = Some v.
Proof.
  revert index. induction s as [|x s IH]; intros [|index] H; cbn in *; try lia.
  - reflexivity.
  - apply IH. lia.
Qed.

Lemma nth_error_store_neq {A : Type} (s : list A) (index p : nat) (v : A) :
  p <> index -> nth_error (store s index v) p = nth_error s p.
Proof.
  revert index p. induction s as [|x s IH]; intros [|index] [|p] H; cbn;
    try reflexivity; try contradiction.
  apply IH. congruence.
Qed.

(** ** [ParseSyncedLyrics] *)

(** What an iteration that stores an entry has seen and stored. *)
Lemma parseLine_stores (index : nat) (line : string) (e : SyncedLyric) :
  parseLine index line = Ok (Some e) ->
  0 <= Strings.Index line " "
  /\ Index e = Z.of_nat index
  /\ Text e = drop (Z.to_nat (Strings.Index line " ")) line.
Proof.
  unfold parseLine. intros H.
  pose proof (Index_bounds line " ") as Hb.
  destruct (Z.eqb_spec (Strings.Index line " ") (-1)) as [|Hne]; [discriminate|].
  rewrite slice_prefix, slice_suffix in H by lia. cbn [bind] in H.
  destruct (slice _ 1 _) as [stamp|]; cbn [bind] in H; [|discriminate].
  destruct (Strings.Split stamp ":") as [|sep0 [|sep1 [|]]]; try discriminate.
  destruct (Strconv.ParseInt10 sep0) as [minutes [|]]; try discriminate.
  destruct (Strconv.ParseFloat64 sep1) as [seconds [|]]; try discriminate.
  injection H as <-. cbn. repeat split. lia.
Qed.

(** The loop changes the slots of the lines it stores, and only those. *)
Lemma ParseSyncedLyrics_loop_spec (lines : list string) :
  forall (index : nat) (acc out : list SyncedLyric),
    ParseSyncedLyrics_loop index lines acc = Ok out ->
    (index + List.length lines <= List.length acc)%nat ->
    List.length out = List.length acc
    /\ (forall p, (p < index)%nat \/ (index + List.length lines <= p)%nat ->
                  nth_error out p = nth_error acc p)
    /\ (forall j line, nth_error lines j = Some line ->
          (parseLine (index + j) line = Ok None
           /\ nth_error out (index + j) = nth_error acc (index + j))
          \/ (exists e, parseLine (index + j) line = Ok (Some e)
                        /\ nth_error out (index + j) = Some e)).
Proof.
  induction lines as [|line lines IH]; intros index acc out Hrun Hlen.
  - cbn in Hrun. injection Hrun as <-. repeat split.
    intros [|j] l Hj; discriminate.
  - cbn [ParseSyncedLyrics_loop bind] in Hrun. cbn [List.length] in Hlen.
    destruct (parseLine index line) as [entry|] eqn:Hline; [|discriminate].
    cbn [bind] in Hrun.
    set (acc' := match entry with
                 | None => acc
                 | Some l => store acc index l
                 end) in *.
    assert (List.length acc' = List.length acc) as Hacc'.
    { subst acc'. destruct entry; [apply length_store|reflexivity]. }
    destruct (IH (S index) acc' out Hrun) as (Hl & Hout & Hin); [lia|].
    split; [congruence|]. split.
    + intros p Hp. cbn [List.length] in Hp. rewrite Hout by lia.
      subst acc'. destruct entry; [|reflexivity].
      apply nth_error_store_neq. lia.
    + intros [|j] l Hj.
      * injection Hj as <-. rewrite Nat.add_0_r, Hline.
        rewrite Hout by lia. subst acc'. destruct entry as [e|].
        -- right. exists e. split; [reflexivity|].
           apply nth_error_store_eq. lia.
        -- left. split; reflexivity.
      * cbn [nth_error] in Hj. replace (index + S j)%nat with (S index + j)%nat by lia.
        destruct (Hin j l Hj) as [[Hp Hn]|(e & Hp & Hn)].
        -- left. split; [assumption|]. rewrite Hn. subst acc'.
           destruct entry; [|reflexivity]. apply nth_error_store_neq. lia.
        -- right. exists e. split; assumption.
Qed.

Lemma nth_error_repeat_zero (n p : nat) :
  (p < n)%nat -> nth_error (repeat zeroSyncedLyric n) p = Some zeroSyncedLyric.
Proof.
  revert p. induction n as [|n IH]; intros [|p] H; cbn; try lia; try reflexivity.
  apply IH. lia.
Qed.

(** When [ParseSyncedLyrics] returns, it returns one entry for each line. *)
Lemma ParseSyncedLyrics_length (str : string) (out : list SyncedLyric) :
  ParseSyncedLyrics str = Ok out ->
  List.length out = List.length (Strings.Split str newline_char).
Proof.
  unfold ParseSyncedLyrics. intros H.
  apply ParseSyncedLyrics_loop_spec in H; rewrite repeat_length in *; [|cbn; lia].
  tauto.
Qed.

Lemma length_take (n : nat) (s : string) :
  (n <= String.length s)%nat -> String.length (take n s) = n.
Proof.
  revert s. induction n as [|n IH]; intros [|c s] H; cbn in *; try reflexivity; try lia.
  rewrite IH by lia. reflexivity.
Qed.

Lemma len_take (i : Z) (s : string) :
  0 <= i <= len s -> len (take (Z.to_nat i) s) = i.
Proof.
  unfold len. intros H. rewrite length_take by lia. lia.
Qed.

(** A first space at position 0 or 1 leaves a stamp too short to strip:
    the slice [stamp[1 : len(stamp)-1]] panics. *)
Lemma parseLine_short_stamp (index : nat) (line : string) :
  0 <= Strings.Index line " " <= 1 ->
  parseLine index line
  = Panics (SliceBoundsOutOfRange 1 (Strings.Index line " " - 1)).
Proof.
  intros Hi. unfold parseLine.
  pose proof (Index_bounds line " ") as Hb.
  destruct (Z.eqb_spec (Strings.Index line " ") (-1)) as [|_]; [lia|].
  rewrite slice_prefix, slice_suffix by lia. cbn [bind].
  unfold slice. rewrite !len_take by lia.
  replace ((0 <=? 1) && (1 <=? Strings.Index line " " - 1)) with false
    by (symmetry; apply andb_false_iff; right; apply Z.leb_gt; lia).
  reflexivity.
Qed.

(** Any other line is parsed, or skipped, without a panic. *)
Lemma parseLine_returns (index : nat) (line : string) :
  Strings.Index line " " = -1 \/ 2 <= Strings.Index line " " ->
  exists entry, parseLine index line = Ok entry.
Proof.
  intros Hi. unfold parseLine.
  pose proof (Index_bounds line " ") as Hb.
  destruct (Z.eqb_spec (Strings.Index line " ") (-1)) as [|Hne]; [eauto|].
  rewrite slice_prefix, slice_suffix by lia. cbn [bind].
  unfold slice. rewrite !len_take by lia.
  replace ((0 <=? 1) && (1 <=? Strings.Index line " " - 1)
           && (Strings.Index line " " - 1 <=? Strings.Index line " ")) with true
    by (symmetry; rewrite !andb_true_iff, !Z.leb_le; lia).
  cbn [bind].
  destruct (Strings.Split _ ":") as [|sep0 [|sep1 [|]]]; eauto.
  destruct (Strconv.ParseInt10 sep0) as [minutes [|]]; eauto.
  destruct (Strconv.ParseFloat64 sep1) as [seconds [|]]; eauto.
Qed.

Lemma ParseSyncedLyrics_loop_returns (lines : list string) :
  (forall line, In line lines ->
     Strings.Index line " " = -1 \/ 2 <= Strings.Index line " ") ->
  forall index acc, exists out, ParseSyncedLyrics_loop index lines acc = Ok out.
Proof.
  induction lines as [|line lines IH]; intros Hlines index acc.
  - cbn. eauto.
  - cbn [ParseSyncedLyrics_loop].
    destruct (parseLine_returns index line) as [entry ->]; [apply Hlines; now left|].
    cbn [bind]. apply IH. intros l Hl. apply Hlines. now right.
Qed.

Lemma ParseSyncedLyrics_loop_panics (lines : list string) (bad : string) :
  In bad lines -> 0 <= Strings.Index bad " " <= 1 ->
  forall index acc, exists p, ParseSyncedLyrics_loop index lines acc = Panics p.
Proof.
  induction lines as [|line lines IH]; intros Hin Hbad index acc; [contradiction|].
  cbn [ParseSyncedLyrics_loop].
  destruct (parseLine index line) as [entry|p] eqn:Hline; cbn [bind]; [|eauto].
  destruct Hin as [->|Hin].
  - rewrite parseLine_short_stamp in Hline by assumption. discriminate.
  - now apply IH.
Qed.

(** [ParseSyncedLyrics] returns, one entry for each line, exactly on the
    inputs without a line whose first space comes at position 0 or 1. *)
Lemma ParseSyncedLyrics_returns (str : string) :
  (forall line, In line (Strings.Split str newline_char) ->
     Strings.Index line " " = -1 \/ 2 <= Strings.Index line " ") ->
  exists out,
    ParseSyncedLyrics str = Ok out
    /\ List.length out = List.length (Strings.Split str newline_char).
Proof.
  intros Hlines.
  destruct (ParseSyncedLyrics_loop_returns _ Hlines 0%nat
              (repeat zeroSyncedLyric (List.length (Strings.Split str newline_char))))
    as [out Hout].
  exists out. split; [exact Hout|]. now apply ParseSyncedLyrics_length.
Qed.

Lemma ParseSyncedLyrics_panics (str bad : string) :
  In bad (Strings.Split str newline_char) ->
  0 <= Strings.Index bad " " <= 1 ->
  exists p, ParseSyncedLyrics str = Panics p.
Proof.
  intros Hin Hbad. unfold ParseSyncedLyrics.
  now apply (ParseSyncedLyrics_loop_panics _ bad).
Qed.

(** C4 fails on the code.  A line whose first space comes at position 0 or 1
    makes [ParseSyncedLyrics] panic instead of leaving a zero entry: here
    the stamp is ["I"] and [stamp[1:0]] is out of range. *)
Theorem ParseSyncedLyrics_panics_on_short_stamp :
  ParseSyncedLyrics "I love you" = Panics (SliceBoundsOutOfRange 1 0)
  /\ Strings.Index "I love you" " " = 1.
Proof. split; reflexivity. Qed.

(** The slot of a line when [ParseSyncedLyrics] returns: the entry the line
    parses to, or the zero entry. *)
Lemma ParseSyncedLyrics_slot (str : string) (out : list SyncedLyric)
      (i : nat) (line : string) :
  ParseSyncedLyrics str = Ok out ->
  nth_error (Strings.Split str newline_char) i = Some line ->
  (parseLine i line = Ok None /\ nth_error out i = Some zeroSyncedLyric)
  \/ (exists e, parseLine i line = Ok (Some e) /\ nth_error out i = Some e).
Proof.
  unfold ParseSyncedLyrics. intros Hrun Hline.
  apply ParseSyncedLyrics_loop_spec in Hrun; rewrite ?repeat_length in *; [|cbn; lia].
  destruct Hrun as (_ & _ & Hin).
  destruct (Hin i line Hline) as [[Hp Hn]|(e & Hp & Hn)]; cbn [Nat.add] in *.
  - left. split; [assumption|].
    rewrite Hn. apply nth_error_repeat_zero.
    apply nth_error_Some. congruence.
  - right. exists e. split; assumption.
Qed.

(** C6, as the code has it.  When [ParseSyncedLyrics] returns, the entry at
    position [i] has index [i] if line [i] parses, and is the zero entry,
    of index 0, if the line is skipped. *)
Theorem ParseSyncedLyrics_index (str : string) (out : list SyncedLyric)
        (i : nat) (line : string) :
  ParseSyncedLyrics str = Ok out ->
  nth_error (Strings.Split str newline_char) i = Some line ->
  exists e,
    nth_error out i = Some e
    /\ ((parseLine i line = Ok (Some e) /\ Index e = Z.of_nat i)
        \/ (parseLine i line = Ok None /\ e = zeroSyncedLyric /\ Index e = 0)).
Proof.
  intros Hrun Hline.
  destruct (ParseSyncedLyrics_slot str out i line Hrun Hline)
    as [[Hp Hn]|(e & Hp & Hn)].
  - exists zeroSyncedLyric. split; [assumption|].
    right. repeat split. assumption.
  - exists e. split; [assumption|]. left. split; [assumption|].
    now apply parseLine_stores in Hp.
Qed.

Lemma ParseSyncedLyrics_index_witness :
  exists e,
    nth_error [mkSyncedLyric 1500000000 " hello" 0; zeroSyncedLyric] 1 = Some e
    /\ ((parseLine 1 "nospacehere" = Ok (Some e) /\ Index e = Z.of_nat 1)
        \/ (parseLine 1 "nospacehere" = Ok None /\ e = zeroSyncedLyric /\ Index e = 0)).
Proof.
  apply (ParseSyncedLyrics_index example_lyrics
           [mkSyncedLyric 1500000000 " hello" 0; zeroSyncedLyric] 1 "nospacehere").
  - vm_compute. reflexivity.
  - reflexivity.
Defined.

(** C6 as stated fails: the entry of a skipped second line has index 0. *)
Lemma ParseSyncedLyrics_index_counterexample :
  exists out e,
    ParseSyncedLyrics example_lyrics = Ok out
    /\ nth_error out 1 = Some e
    /\ Index e <> 1.
Proof.
  exists [mkSyncedLyric 1500000000 " hello" 0; zeroSyncedLyric], zeroSyncedLyric.
  split; [vm_compute; reflexivity|]. split; [reflexivity|]. cbn. discriminate.
Qed.

(** C7. The single line [[0:01.50] hello] gives one entry, at 1.5 seconds
    (a [time.Duration] counts nanoseconds), of index 0. *)
Theorem ParseSyncedLyrics_one_line :
  exists e,
    ParseSyncedLyrics "[0:01.50] hello" = Ok [e]
    /\ At e = 1500000000
    /\ 2 * At e = 3 * Time.Second
    /\ Index e = 0.
Proof.
  exists (mkSyncedLyric 1500000000 " hello" 0).
  split; [vm_compute; reflexivity|]. repeat split.
Qed.

(** ** [FormatSyncedLyrics] *)

Lemma append_assoc (a b c : string) : (a ++ b) ++ c = a ++ b ++ c.
Proof. induction a as [|x a IH]; cbn; [reflexivity|now rewrite IH]. Qed.

(** The names [FormatSyncedLyrics] uses and nothing declares. *)
Lemma FormatSyncedLyrics_undefined :
  GoSource.undefined GoSource.FormatSyncedLyrics
  = ["SyncedLyrics"; "syncedLyrics"; "syncedLyrics"].
Proof. vm_compute. reflexivity. Qed.

(** C5 fails on the code.  [FormatSyncedLyrics] as it is written emits
    nothing, for no entry: the type of its parameter and the slice it
    ranges over are undefined identifiers, and the field [Lyric] it prints
    is none of [SyncedLyric], whose text is the field [Text]; the function
    is rejected by the compiler. *)
Theorem FormatSyncedLyrics_does_not_type_check :
  GoSource.undefined GoSource.FormatSyncedLyrics
  = ["SyncedLyrics"; "syncedLyrics"; "syncedLyrics"]
  /\ GoSource.resolves GoSource.FormatSyncedLyrics = false
  /\ In ("lyrics", GoSource.TSlice (GoSource.TName "SyncedLyrics"))
        (GoSource.params GoSource.FormatSyncedLyrics)
  /\ GoSource.field_type GoSource.SyncedLyric "Lyric" = None
  /\ GoSource.field_type GoSource.SyncedLyric "Text" = Some (GoSource.TName "string").
Proof.
  split; [exact FormatSyncedLyrics_undefined|].
  split; [vm_compute; reflexivity|].
  split; [now left|]. split; reflexivity.
Qed.

(** What the [Sprintf] call of the function writes for three operands. *)
Lemma Sprintf_stamp_text (minutes : Z) (seconds : float64) (text : string) :
  Fmt.Sprintf GoSource.Sprintf_format
              [Fmt.Int minutes; Fmt.Float seconds; Fmt.Str text]
  = "[" ++ Fmt.fmtInteger (Fmt.mkSpec false None None) minutes ++ ":"
        ++ Fmt.fmtFloat (Fmt.mkSpec true (Some 2%nat) (Some 2%nat)) seconds
        ++ "] " ++ text.
Proof.
  unfold Fmt.Sprintf, GoSource.Sprintf_format. cbn -[Fmt.fmtInteger Fmt.fmtFloat].
  rewrite append_empty_r. reflexivity.
Qed.

(** The call on the minutes and the seconds of an offset of 65.25 s, taken
    as the function means to take them. *)
Example Sprintf_stamp_of_65_25_seconds :
  Fmt.Sprintf GoSource.Sprintf_format
              [Fmt.Int (Float64.to_int64 (Time.Minutes 65250000000));
               Fmt.Float (Time.Seconds 65250000000); Fmt.Str "la la"]
  = "[1:65.25] la la".
Proof. vm_compute. reflexivity. Qed.

(** C8 fails on the code.  The half on [ParseSyncedLyrics] holds: a line
    that parses is a stamp without a space, a space and the rest, and the
    entry keeps the space and the rest as its text.  The format of the
    [Sprintf] call of [FormatSyncedLyrics] has a space of its own after
    the bracket, so the call, given that text, would write two spaces
    before the rest.  But nothing is formatted: the function has undefined
    identifiers and is rejected by the compiler. *)
Theorem ParseSyncedLyrics_keeps_space_Format_unresolved
        (str : string) (out : list SyncedLyric) (i : nat) (line : string)
        (e : SyncedLyric) :
  ParseSyncedLyrics str = Ok out ->
  nth_error (Strings.Split str newline_char) i = Some line ->
  parseLine i line = Ok (Some e) ->
  nth_error out i = Some e
  /\ (exists stamp rest,
         line = stamp ++ " " ++ rest
         /\ Strings.Index stamp " " = -1
         /\ Text e = " " ++ rest
         /\ forall minutes seconds,
             Fmt.Sprintf GoSource.Sprintf_format
                         [Fmt.Int minutes; Fmt.Float seconds; Fmt.Str (Text e)]
             = "[" ++ Fmt.fmtInteger (Fmt.mkSpec false None None) minutes ++ ":"
                   ++ Fmt.fmtFloat (Fmt.mkSpec true (Some 2%nat) (Some 2%nat)) seconds
                   ++ "]  " ++ rest)
  /\ GoSource.resolves GoSource.FormatSyncedLyrics = false.
Proof.
  intros Hrun Hline Hparse.
  destruct (ParseSyncedLyrics_slot str out i line Hrun Hline)
    as [[Hp _]|(e' & Hp & Hnth)]; rewrite Hparse in Hp; [discriminate|].
  injection Hp as <-. split; [assumption|].
  split; [|vm_compute; reflexivity].
  destruct (parseLine_stores i line e Hparse) as (Hi & _ & Htext).
  destruct (Index_found line " " Hi) as [Hdrop Htake].
  exists (take (Z.to_nat (Strings.Index line " ")) line),
         (drop (S (Z.to_nat (Strings.Index line " "))) line).
  assert (Text e = " " ++ drop (S (Z.to_nat (Strings.Index line " "))) line) as Ht.
  { rewrite Htext, Hdrop. reflexivity. }
  repeat split.
  - rewrite <- (take_drop (Z.to_nat (Strings.Index line " ")) line) at 1.
    rewrite Hdrop. reflexivity.
  - exact Htake.
  - exact Ht.
  - intros minutes seconds. rewrite Sprintf_stamp_text, Ht. reflexivity.
Qed.

Lemma ParseSyncedLyrics_keeps_space_Format_unresolved_witness :
  nth_error [mkSyncedLyric 1500000000 " hello" 0] 0
  = Some (mkSyncedLyric 1500000000 " hello" 0)
  /\ (exists stamp rest,
         "[0:01.50] hello" = stamp ++ " " ++ rest
         /\ Strings.Index stamp " " = -1
         /\ Text (mkSyncedLyric 1500000000 " hello" 0) = " " ++ rest
         /\ forall minutes seconds,
             Fmt.Sprintf GoSource.Sprintf_format
                         [Fmt.Int minutes; Fmt.Float seconds;
                          Fmt.Str (Text (mkSyncedLyric 1500000000 " hello" 0))]
             = "[" ++ Fmt.fmtInteger (Fmt.mkSpec false None None) minutes ++ ":"
                   ++ Fmt.fmtFloat (Fmt.mkSpec true (Some 2%nat) (Some 2%nat)) seconds
                   ++ "]  " ++ rest)
  /\ GoSource.resolves GoSource.FormatSyncedLyrics = false.
Proof.
  apply (ParseSyncedLyrics_keeps_space_Format_unresolved
           "[0:01.50] hello" [mkSyncedLyric 1500000000 " hello" 0] 0
           "[0:01.50] hello" (mkSyncedLyric 1500000000 " hello" 0)).
  - vm_compute. reflexivity.
  - reflexivity.
  - vm_compute. reflexivity.
Defined.

(* ================================================================= *)
(** * Further properties of the solver *)

Lemma byte_val_inj (x y : byte) : byte_val x = byte_val y -> x = y.
Proof.
  unfold byte_val. intros H.
  pose proof (Byte.of_to_N x) as Hx. rewrite H, Byte.of_to_N in Hx. congruence.
Qed.

Lemma be_value_inj (a b : list byte) :
  List.length a = List.length b -> be_value a = be_value b -> a = b.
Proof.
  revert b. induction a as [|x a IH]; intros [|y b] Hlen Hval; try discriminate.
  - reflexivity.
  - injection Hlen as Hlen. rewrite !be_value_cons, <- Hlen in Hval.
    pose proof (be_value_bound a) as Ha.
    pose proof (be_value_bound b) as Hb. rewrite <- Hlen in Hb.
    set (P := (256 ^ N.of_nat (List.length a))%N) in *.
    destruct (N.div_mod_unique P (byte_val x) (byte_val y) (be_value a) (be_value b))
      as [Hq Hr]; try assumption; [lia|].
    f_equal; [now apply byte_val_inj | now apply IH].
Qed.

Lemma verifyNonce_loop_prefix (p r1 r2 : list byte) :
  verifyNonce_loop (p ++ r1) (p ++ r2) = verifyNonce_loop r1 r2.
Proof.
  induction p as [|a p IH]; [reflexivity|].
  cbn [app verifyNonce_loop]. rewrite N.ltb_irrefl. exact IH.
Qed.

(** X1. The first position where the two sequences differ decides: the
    digest is accepted exactly when its byte there is the smaller one, and
    no byte after it is looked at. *)
Theorem verifyNonce_first_difference (p r1 r2 : list byte) (x y : byte) :
  List.length r1 = List.length r2 -> x <> y ->
  verifyNonce (p ++ x :: r1) (p ++ y :: r2) = (byte_val x <? byte_val y)%N.
Proof.
  intros Hlen Hxy.
  rewrite verifyNonce_eq_length
    by (rewrite !length_app; cbn [List.length]; now rewrite Hlen).
  rewrite verifyNonce_loop_prefix. cbn [verifyNonce_loop].
  destruct (N.ltb_spec (byte_val y) (byte_val x)) as [Hyx|Hyx].
  - symmetry. apply N.ltb_ge. lia.
  - destruct (N.ltb_spec (byte_val x) (byte_val y)) as [|Hge]; [reflexivity|].
    exfalso. apply Hxy, byte_val_inj. lia.
Qed.

Lemma verifyNonce_first_difference_witness :
  verifyNonce ([x12; x34] ++ x05 :: [xff; xff]) ([x12; x34] ++ x06 :: [x00; x00])
  = (byte_val x05 <? byte_val x06)%N.
Proof.
  apply (verifyNonce_first_difference [x12; x34] [xff; xff] [x00; x00] x05 x06).
  - reflexivity.
  - discriminate.
Defined.

(** X2. On sequences of one length [verifyNonce] is a total order: of two
    sequences one is accepted against the other, and two sequences accepted
    against each other are equal. *)
Theorem verifyNonce_total_antisymmetric (a b : list byte) :
  List.length a = List.length b ->
  (verifyNonce a b = true \/ verifyNonce b a = true)
  /\ (verifyNonce a b = true -> verifyNonce b a = true -> a = b).
Proof.
  intros Hlen.
  rewrite (verifyNonce_eq_length a b), (verifyNonce_eq_length b a) by congruence.
  rewrite (verifyNonce_loop_le a b), (verifyNonce_loop_le b a) by congruence.
  rewrite !N.leb_le. split; [lia|].
  intros Hab Hba. apply be_value_inj; [assumption|lia].
Qed.

Lemma verifyNonce_total_antisymmetric_witness :
  (verifyNonce [x01; x02] [x01; x03] = true \/ verifyNonce [x01; x03] [x01; x02] = true)
  /\ (verifyNonce [x01; x02] [x01; x03] = true ->
      verifyNonce [x01; x03] [x01; x02] = true -> [x01; x02] = [x01; x03]).
Proof.
  apply (verifyNonce_total_antisymmetric [x01; x02] [x01; x03]). reflexivity.
Defined.

(** X3. Raising the target keeps what was accepted: a digest accepted for a
    target is accepted for every target that the first target is itself
    accepted against. *)
Theorem verifyNonce_monotone_in_target (hashed target target' : list byte) :
  verifyNonce hashed target = true ->
  verifyNonce target target' = true ->
  verifyNonce hashed target' = true.
Proof.
  intros H1 H2.
  pose proof (verifyNonce_true_length _ _ H1) as L1.
  pose proof (verifyNonce_true_length _ _ H2) as L2.
  rewrite verifyNonce_eq_length, verifyNonce_loop_le in * by congruence.
  rewrite N.leb_le in *. lia.
Qed.

Lemma verifyNonce_monotone_in_target_witness :
  verifyNonce [x00; xff] [x01; x00] = true
  /\ verifyNonce [x01; x00] [x0f; x00] = true
  /\ verifyNonce [x00; xff] [x0f; x00] = true.
Proof.
  split; [reflexivity|]. split; [reflexivity|].
  apply (verifyNonce_monotone_in_target [x00; xff] [x01; x00] [x0f; x00]);
    reflexivity.
Defined.

(** What the loop returns, it has accepted, after rejecting what came before. *)
Lemma solveChallenge_loop_sound (prefix : string) (target : list byte) :
  forall (fuel : nat) (k n : Z),
    0 <= k -> k + Z.of_nat fuel <= 2 ^ 63 ->
    solveChallenge_loop fuel prefix target k = Returned n ->
    k <= n < k + Z.of_nat fuel
    /\ accepts prefix target n = true
    /\ (forall j, k <= j < n -> accepts prefix target j = false).
Proof.
  induction fuel as [|fuel IH]; intros k n Hk Hmax Hrun; [discriminate|].
  rewrite solveChallenge_loop_step in Hrun.
  destruct (accepts prefix target k) eqn:Hacc.
  - injection Hrun as <-. repeat split; try lia. assumption.
  - destruct fuel as [|fuel']; [discriminate|].
    assert (Int64.add k 1 = k + 1) as Hadd.
    { unfold Int64.add. apply wrap64_small.
      unfold Int64.in_range, Int64.min_int, Int64.max_int. lia. }
    rewrite Hadd in Hrun.
    destruct (IH (k + 1) n) as (Hn & Hok & Hrej); try lia; try assumption.
    repeat split; try lia; [assumption|].
    intros j Hj. destruct (Z.eq_dec j k) as [->|]; [assumption|apply Hrej; lia].
Qed.

(** A nonce the loop returns is accepted, wherever the counter has got to. *)
Lemma solveChallenge_loop_accepts (prefix : string) (target : list byte) :
  forall (fuel : nat) (k n : Z),
    solveChallenge_loop fuel prefix target k = Returned n ->
    accepts prefix target n = true.
Proof.
  induction fuel as [|fuel IH]; intros k n Hrun; [discriminate|].
  rewrite solveChallenge_loop_step in Hrun.
  destruct (accepts prefix target k) eqn:Hacc.
  - now injection Hrun as <-.
  - now apply IH in Hrun.
Qed.

(** X4. Whatever [solveChallenge] returns is the decimal of a nonce whose
    digest the target accepts; within the first [2^63] trials it is the
    number of trials that failed, every smaller nonce having been rejected. *)
Theorem solveChallenge_sound (fuel : nat) (prefix targetHex nonce : string) :
  solveChallenge fuel prefix targetHex = Returned nonce ->
  exists n,
    nonce = Strconv.Itoa n
    /\ accepts prefix (fst (Hex.DecodeString targetHex)) n = true
    /\ List.length (fst (Hex.DecodeString targetHex)) = SHA256.Size
    /\ (Z.of_nat fuel <= 2 ^ 63 ->
        0 <= n < Z.of_nat fuel
        /\ forall j, 0 <= j < n ->
                     accepts prefix (fst (Hex.DecodeString targetHex)) j = false).
Proof.
  unfold solveChallenge. intros Hrun.
  destruct (solveChallenge_loop fuel prefix _ 0) as [n|] eqn:Hloop; [|discriminate].
  injection Hrun as <-. exists n.
  pose proof (solveChallenge_loop_accepts _ _ _ _ _ Hloop) as Hacc.
  split; [reflexivity|]. split; [assumption|].
  split; [eapply accepts_length; eassumption|].
  intros Hfuel. apply solveChallenge_loop_sound in Hloop; try lia.
  destruct Hloop as (Hn & _ & Hrej). split; [lia|exact Hrej].
Qed.

Lemma solveChallenge_sound_witness :
  exists n,
    "26" = Strconv.Itoa n
    /\ accepts "abc" (fst (Hex.DecodeString example_target)) n = true
    /\ List.length (fst (Hex.DecodeString example_target)) = SHA256.Size
    /\ (Z.of_nat 27 <= 2 ^ 63 ->
        0 <= n < Z.of_nat 27
        /\ forall j, 0 <= j < n ->
                     accepts "abc" (fst (Hex.DecodeString example_target)) j = false).
Proof.
  apply (solveChallenge_sound 27 "abc" example_target "26").
  vm_compute. reflexivity.
Defined.

(** ** The target as [solveChallenge] reads it *)

Lemma DecodeString_pair (p q : ascii) (rest : string) :
  Hex.DecodeString (String p (String q rest))
  = match Hex.fromHexChar p, Hex.fromHexChar q with
    | None, _ => ([], Some (Hex.InvalidByteError p))
    | Some _, None => ([], Some (Hex.InvalidByteError q))
    | Some a, Some b =>
        let (dst, err) := Hex.DecodeString rest in
        (byte_of_N (N.lor (N.shiftl a 4) b) :: dst, err)
    end.
Proof. reflexivity. Qed.

(** Text after a target that decodes is decoded after it. *)
Lemma DecodeString_app (n : nat) :
  forall t junk : string,
    (String.length t <= n)%nat ->
    snd (Hex.DecodeString t) = None ->
    fst (Hex.DecodeString (t ++ junk))
    = (fst (Hex.DecodeString t) ++ fst (Hex.DecodeString junk))%list.
Proof.
  induction n as [|n IH]; intros [|p [|q rest]] junk Hlen Herr;
    cbn [String.length] in Hlen; try lia; try reflexivity.
  - exfalso. cbn in Herr. destruct (Hex.fromHexChar p); discriminate.
  - cbn [append]. rewrite !DecodeString_pair in *.
    destruct (Hex.fromHexChar p) as [a|]; [|discriminate].
    destruct (Hex.fromHexChar q) as [b|]; [|discriminate].
    specialize (IH rest junk).
    destruct (Hex.DecodeString rest) as [dst err].
    destruct (Hex.DecodeString (rest ++ junk)) as [dst' err'].
    cbn [fst snd] in *. rewrite IH by (try lia; assumption). reflexivity.
Qed.

(** X5. [solveChallenge] drops the error of [hex.DecodeString]: a target
    that decodes, followed by text of which no byte can be decoded (a lone
    character, or text whose first two characters are not both hexadecimal
    digits), is solved with the same outcome as the target alone. *)
Theorem solveChallenge_ignores_trailing_text
        (fuel : nat) (prefix targetHex junk : string) :
  snd (Hex.DecodeString targetHex) = None ->
  fst (Hex.DecodeString junk) = [] ->
  solveChallenge fuel prefix (targetHex ++ junk) = solveChallenge fuel prefix targetHex.
Proof.
  intros Herr Hjunk. unfold solveChallenge.
  rewrite (DecodeString_app (String.length targetHex)) by (try lia; assumption).
  rewrite Hjunk, app_nil_r. reflexivity.
Qed.

Lemma solveChallenge_ignores_trailing_text_witness :
  snd (Hex.DecodeString (example_target ++ "zz")) = Some (Hex.InvalidByteError "z")
  /\ solveChallenge 27 "abc" (example_target ++ "zz")
     = solveChallenge 27 "abc" example_target.
Proof.
  split; [reflexivity|].
  apply (solveChallenge_ignores_trailing_text 27 "abc" example_target "zz");
    reflexivity.
Defined.

(** X6. [NewPublishToken] ends in one of two ways: an error with the empty
    token, when the request or the decoding of its answer failed; or no
    error and the token [{prefix}:{n}] for a nonce [n] whose digest the
    target of the challenge accepts. *)
Theorem NewPublishToken_token_is_valid
        (fuel : nat) (reply : challenge_reply) (token : string)
        (err : option token_error) :
  NewPublishToken fuel reply = Returned (token, err) ->
  (token = "" /\ err <> None /\ (reply = RequestFailed \/ reply = BodyUndecodable))
  \/ (err = None
      /\ exists Prefix Target n,
          reply = Challenge Prefix Target
          /\ token = "{" ++ Prefix ++ "}:{" ++ Strconv.Itoa n ++ "}"
          /\ accepts Prefix (fst (Hex.DecodeString Target)) n = true).
Proof.
  destruct reply as [| |Prefix Target]; cbn [NewPublishToken]; intros Hrun.
  - injection Hrun as <- <-. left. repeat split; [discriminate|now left].
  - injection Hrun as <- <-. left. repeat split; [discriminate|now right].
  - destruct (solveChallenge fuel Prefix Target) as [nonce|] eqn:Hsolve; [|discriminate].
    injection Hrun as <- <-. right. split; [reflexivity|].
    unfold solveChallenge in Hsolve.
    destruct (solveChallenge_loop fuel Prefix _ 0) as [n|] eqn:Hloop; [|discriminate].
    injection Hsolve as <-.
    exists Prefix, Target, n. repeat split.
    eapply solveChallenge_loop_accepts; eassumption.
Qed.

Lemma NewPublishToken_token_is_valid_witness :
  ("{abc}:{26}" = "" /\ @None token_error <> None
   /\ (Challenge "abc" example_target = RequestFailed
       \/ Challenge "abc" example_target = BodyUndecodable))
  \/ (@None token_error = None
      /\ exists Prefix Target n,
          Challenge "abc" example_target = Challenge Prefix Target
          /\ "{abc}:{26}" = "{" ++ Prefix ++ "}:{" ++ Strconv.Itoa n ++ "}"
          /\ accepts Prefix (fst (Hex.DecodeString Target)) n = true).
Proof.
  apply (NewPublishToken_token_is_valid 27 (Challenge "abc" example_target)).
  vm_compute. reflexivity.
Defined.

(* ================================================================= *)
(** * Further properties of the codec *)

Lemma Split_nonempty (s : string) (c : ascii) : Strings.Split s c <> [].
Proof.
  destruct s as [|a s]; cbn [Strings.Split]; [discriminate|].
  destruct (Ascii.eqb a c); [discriminate|].
  destruct (Strings.Split s c); discriminate.
Qed.

Lemma length_Split (s : string) (c : ascii) :
  List.length (Strings.Split s c) = S (count_byte c s).
Proof.
  induction s as [|a s IH]; [reflexivity|].
  cbn [Strings.Split count_byte]. destruct (Ascii.eqb a c).
  - cbn [List.length]. now rewrite IH.
  - destruct (Strings.Split s c) as [|piece pieces]; cbn [List.length] in *; lia.
Qed.

(** Splitting at a separator splits on both sides of it. *)
Lemma Split_app_sep (x y : string) (c : ascii) :
  Strings.Split (x ++ String c y) c = (Strings.Split x c ++ Strings.Split y c)%list.
Proof.
  induction x as [|a x IH]; cbn [append Strings.Split].
  - now rewrite Ascii.eqb_refl.
  - destruct (Ascii.eqb a c); [now rewrite IH|].
    rewrite IH. pose proof (Split_nonempty x c) as Hne.
    destruct (Strings.Split x c) as [|piece pieces]; [contradiction|reflexivity].
Qed.

Lemma Split_no_sep (x : string) (c : ascii) :
  Strings.Index x c = -1 -> Strings.Split x c = [x].
Proof.
  induction x as [|a x IH]; [reflexivity|].
  cbn [Strings.Index Strings.Split]. destruct (Ascii.eqb a c); [discriminate|].
  destruct (Z.eqb_spec (Strings.Index x c) (-1)) as [He|]; [|pose proof (Index_bounds x c); lia].
  intros _. now rewrite IH.
Qed.

(** ** The loop, a line at a time *)

Lemma ParseSyncedLyrics_loop_app (l1 l2 : list string) :
  forall (index : nat) (acc : list SyncedLyric),
    ParseSyncedLyrics_loop index (l1 ++ l2)%list acc
    = (acc' <- ParseSyncedLyrics_loop index l1 acc ;;
       ParseSyncedLyrics_loop (index + List.length l1) l2 acc').
Proof.
  induction l1 as [|line l1 IH]; intros index acc.
  - cbn. now rewrite Nat.add_0_r.
  - cbn [app ParseSyncedLyrics_loop List.length].
    destruct (parseLine index line) as [entry|p]; cbn [bind]; [|reflexivity].
    rewrite IH. now replace (S index + List.length l1)%nat
                  with (index + S (List.length l1))%nat by lia.
Qed.

Lemma store_app {A : Type} (s ext : list A) (index : nat) (v : A) :
  (index < List.length s)%nat ->
  store (s ++ ext)%list index v = (store s index v ++ ext)%list.
Proof.
  revert index. induction s as [|x s IH]; intros [|index] H; cbn in *; try lia.
  - reflexivity.
  - now rewrite IH by lia.
Qed.

(** Slots past the lines are carried along untouched. *)
Lemma ParseSyncedLyrics_loop_ext (lines : list string) (ext : list SyncedLyric) :
  forall (index : nat) (acc : list SyncedLyric),
    (index + List.length lines <= List.length acc)%nat ->
    ParseSyncedLyrics_loop index lines (acc ++ ext)%list
    = (out <- ParseSyncedLyrics_loop index lines acc ;; Ok (out ++ ext)%list).
Proof.
  induction lines as [|line lines IH]; intros index acc Hlen; [reflexivity|].
  cbn [ParseSyncedLyrics_loop List.length] in *.
  destruct (parseLine index line) as [[e|]|p]; cbn [bind]; try reflexivity.
  - rewrite store_app by lia. apply IH. rewrite length_store. lia.
  - apply IH. lia.
Qed.

Lemma parseLine_panics_short_stamp (index : nat) (line : string) (p : panic) :
  parseLine index line = Panics p -> 0 <= Strings.Index line " " <= 1.
Proof.
  intros Hp. pose proof (Index_bounds line " ") as Hb.
  destruct (Z_le_gt_dec 2 (Strings.Index line " ")) as [Hge|Hlt]; [|
    destruct (Z.eq_dec (Strings.Index line " ") (-1)) as [He|Hne]; [|lia]].
  - destruct (parseLine_returns index line) as [entry He]; [now right|congruence].
  - destruct (parseLine_returns index line) as [entry He']; [now left|congruence].
Qed.

Lemma ParseSyncedLyrics_loop_panics_inv (lines : list string) :
  forall index acc p,
    ParseSyncedLyrics_loop index lines acc = Panics p ->
    exists line, In line lines /\ 0 <= Strings.Index line " " <= 1.
Proof.
  induction lines as [|line lines IH]; intros index acc p Hrun; [discriminate|].
  cbn [ParseSyncedLyrics_loop] in Hrun.
  destruct (parseLine index line) as [entry|q] eqn:Hline; cbn [bind] in Hrun.
  - destruct (IH _ _ _ Hrun) as (l & Hin & Hl). exists l. split; [now right|assumption].
  - exists line. split; [now left|]. eapply parseLine_panics_short_stamp; eassumption.
Qed.

(** X7. [ParseSyncedLyrics] panics exactly on the inputs with a line whose
    first space is its first or its second byte (the stamp before it is
    then too short for [stamp[1 : len(stamp)-1]]); on every other input it
    returns. *)
Theorem ParseSyncedLyrics_panics_iff (str : string) :
  (exists p, ParseSyncedLyrics str = Panics p)
  <-> (exists line, In line (Strings.Split str newline_char)
                    /\ 0 <= Strings.Index line " " <= 1).
Proof.
  split.
  - intros [p Hp]. unfold ParseSyncedLyrics in Hp.
    eapply ParseSyncedLyrics_loop_panics_inv; eassumption.
  - intros (line & Hin & Hline). eapply ParseSyncedLyrics_panics; eassumption.
Qed.

Lemma ParseSyncedLyrics_panics_iff_witness :
  exists p, ParseSyncedLyrics (example_lyrics ++ String newline_char " x") = Panics p.
Proof.
  apply (ParseSyncedLyrics_panics_iff (example_lyrics ++ String newline_char " x")).
  exists " x". split; [right; right; now left|cbn; lia].
Defined.

(** X8. When [ParseSyncedLyrics] returns, the number of its entries is the
    number of newline bytes of the input plus one: never none, and one
    for the empty input. *)
Theorem ParseSyncedLyrics_count (str : string) (out : list SyncedLyric) :
  ParseSyncedLyrics str = Ok out ->
  List.length out = S (count_byte newline_char str).
Proof.
  intros H. rewrite (ParseSyncedLyrics_length str out H). apply length_Split.
Qed.

Lemma ParseSyncedLyrics_count_witness :
  List.length [mkSyncedLyric 1500000000 " hello" 0; zeroSyncedLyric]
  = S (count_byte newline_char example_lyrics).
Proof.
  apply (ParseSyncedLyrics_count example_lyrics). vm_compute. reflexivity.
Defined.

Lemma repeat_snoc {A : Type} (x : A) (n : nat) :
  repeat x (S n) = (repeat x n ++ [x])%list.
Proof. induction n as [|n IH]; [reflexivity|]. cbn in *. now rewrite <- IH. Qed.

(** X9. A newline at the end of the input is one more, empty, line: it adds
    a zero entry after the entries of the text before it, and changes
    nothing else. *)
Theorem ParseSyncedLyrics_trailing_newline (str : string) :
  ParseSyncedLyrics (str ++ String newline_char "")
  = (out <- ParseSyncedLyrics str ;; Ok (out ++ [zeroSyncedLyric])%list).
Proof.
  unfold ParseSyncedLyrics. rewrite Split_app_sep. cbn [Strings.Split].
  rewrite length_app, Nat.add_comm. cbn [List.length Nat.add].
  rewrite repeat_snoc, ParseSyncedLyrics_loop_app, ParseSyncedLyrics_loop_ext
    by (cbn; rewrite repeat_length; lia).
  destruct (ParseSyncedLyrics_loop 0 _ _) as [out|p]; reflexivity.
Qed.

(** ** More on strings *)

Lemma length_append (x y : string) :
  String.length (x ++ y) = (String.length x + String.length y)%nat.
Proof. induction x as [|a x IH]; cbn; [reflexivity|now rewrite IH]. Qed.

Lemma take_app (x y : string) : take (String.length x) (x ++ y) = x.
Proof. induction x as [|a x IH]; cbn; [now destruct y|now rewrite IH]. Qed.

Lemma drop_app (x y : string) : drop (String.length x) (x ++ y) = y.
Proof. induction x as [|a x IH]; cbn; [reflexivity|exact IH]. Qed.

Lemma Index_cons_other (a c : ascii) (s : string) :
  a <> c -> Strings.Index s c = -1 -> Strings.Index (String a s) c = -1.
Proof.
  intros Hac Hs. cbn [Strings.Index].
  destruct (Ascii.eqb_spec a c); [contradiction|]. now rewrite Hs.
Qed.

Lemma Index_app_none (x y : string) (c : ascii) :
  Strings.Index x c = -1 -> Strings.Index y c = -1 -> Strings.Index (x ++ y) c = -1.
Proof.
  induction x as [|a x IH]; cbn [append Strings.Index]; [auto|].
  destruct (Ascii.eqb a c); [discriminate|].
  destruct (Z.eqb_spec (Strings.Index x c) (-1)) as [He|Hne];
    [|pose proof (Index_bounds x c); lia].
  intros _ Hy. now rewrite IH.
Qed.

(** The first separator after text without one is found where the text ends. *)
Lemma Index_app_sep (x t : string) (c : ascii) :
  Strings.Index x c = -1 -> Strings.Index (x ++ String c t) c = len x.
Proof.
  unfold len. induction x as [|a x IH]; cbn [append Strings.Index String.length].
  - now rewrite Ascii.eqb_refl.
  - destruct (Ascii.eqb a c); [discriminate|].
    destruct (Z.eqb_spec (Strings.Index x c) (-1)) as [He|Hne];
      [|pose proof (Index_bounds x c); lia].
    intros _. rewrite IH by assumption.
    destruct (Z.eqb_spec (Z.of_nat (String.length x)) (-1)); lia.
Qed.

Lemma all_chars_app (P : ascii -> bool) (x y : string) :
  all_chars P (x ++ y) = all_chars P x && all_chars P y.
Proof.
  induction x as [|a x IH]; cbn; [reflexivity|]. now rewrite IH, andb_assoc.
Qed.

Lemma all_chars_drop (P : ascii -> bool) (n : nat) (s : string) :
  all_chars P s = true -> all_chars P (drop n s) = true.
Proof.
  revert s. induction n as [|n IH]; intros [|a s] H; cbn in *; try assumption.
  apply IH. now apply andb_true_iff in H.
Qed.

Lemma all_chars_Index (P : ascii -> bool) (s : string) (c : ascii) :
  all_chars P s = true -> P c = false -> Strings.Index s c = -1.
Proof.
  intros Hs Hc. induction s as [|a s IH]; [reflexivity|].
  cbn in Hs. apply andb_true_iff in Hs as [Ha Hs].
  apply Index_cons_other; [congruence|now apply IH].
Qed.

Lemma to_nat_len (s : string) : Z.to_nat (len s) = String.length s.
Proof. unfold len. apply Nat2Z.id. Qed.

(** ** The loop body does not look at the brackets *)

(** What an iteration makes of a line depends on the stamp only through
    what is left of it without its first and its last byte. *)
Lemma parseLine_stamp_body (index : nat) (body text : string) :
  Strings.Index body " " = -1 ->
  exists r, forall a b : ascii,
      a <> " "%char -> b <> " "%char ->
      parseLine index (String a (body ++ String b (String " " text))) = r.
Proof.
  intros Hbody. eexists. intros a b Ha Hb.
  assert (String a (body ++ String b (String " " text))
          = String a (body ++ String b "") ++ String " " text) as ->.
  { cbn [append]. now rewrite append_assoc. }
  assert (Strings.Index (String a (body ++ String b "")) " " = -1) as Hstamp.
  { apply Index_cons_other; [assumption|].
    apply Index_app_none; [assumption|]. now apply Index_cons_other. }
  assert (len (String a (body ++ String b "")) = len body + 2) as Hlen.
  { unfold len. cbn [String.length]. rewrite length_append. cbn [String.length]. lia. }
  unfold parseLine. rewrite (Index_app_sep _ text " " Hstamp).
  assert (0 <= len body) as Hpos by (unfold len; lia).
  destruct (Z.eqb_spec (len (String a (body ++ String b ""))) (-1)) as [|_]; [lia|].
  rewrite slice_prefix, slice_suffix
    by (unfold len in *; rewrite length_append; lia).
  rewrite !to_nat_len, take_app, drop_app. cbn [bind].
  assert (slice (String a (body ++ String b "")) 1
                (len (String a (body ++ String b "")) - 1) = Ok body) as ->.
  { unfold slice. rewrite Hlen.
    replace ((0 <=? 1) && (1 <=? len body + 2 - 1) && (len body + 2 - 1 <=? len body + 2))
      with true by (symmetry; rewrite !andb_true_iff, !Z.leb_le; lia).
    replace (Z.to_nat (len body + 2 - 1 - 1)) with (String.length body)
      by (unfold len; lia).
    change (Z.to_nat 1) with 1%nat. cbn [drop]. now rewrite take_app. }
  cbn [bind]. reflexivity.
Qed.

(** X10. The brackets are not checked: the first and the last byte of the
    stamp are dropped whatever they are, so a line gives the same entry
    with any two bytes, spaces apart, in the place of [[] and []]. *)
Theorem parseLine_ignores_brackets (index : nat) (a b c d : ascii) (body text : string) :
  a <> " "%char -> b <> " "%char -> c <> " "%char -> d <> " "%char ->
  Strings.Index body " " = -1 ->
  parseLine index (String a (body ++ String b (String " " text)))
  = parseLine index (String c (body ++ String d (String " " text))).
Proof.
  intros Ha Hb Hc Hd Hbody.
  destruct (parseLine_stamp_body index body text Hbody) as [r Hr].
  now rewrite (Hr a b), (Hr c d).
Qed.

Lemma parseLine_ignores_brackets_witness :
  parseLine 0 "<0:01.50> hello" = parseLine 0 "[0:01.50] hello".
Proof.
  apply (parseLine_ignores_brackets 0 "<" ">" "[" "]" "0:01.50" "hello");
    try discriminate. reflexivity.
Defined.

(** ** The bytes of a number in decimal *)

Lemma stamp_chars_uint (d : Decimal.uint) :
  all_chars is_stamp_char (NilZero.string_of_uint d) = true.
Proof.
  assert (forall u, all_chars is_stamp_char (NilEmpty.string_of_uint u) = true) as H.
  { induction u; cbn [NilEmpty.string_of_uint all_chars]; try reflexivity;
      rewrite IHu; reflexivity. }
  destruct d; try apply H. reflexivity.
Qed.

Lemma stamp_chars_zeros (n : nat) :
  all_chars is_stamp_char (Fmt.writePadding true n) = true.
Proof.
  unfold Fmt.writePadding. induction n as [|n IH]; [reflexivity|].
  cbn [repeat string_of_list_ascii all_chars]. now rewrite IH.
Qed.

Lemma stamp_chars_fmtInteger (i : Z) :
  all_chars is_stamp_char (Fmt.fmtInteger (Fmt.mkSpec false None None) i) = true.
Proof.
  unfold Fmt.fmtInteger, Fmt.pad. cbn [Fmt.wid Fmt.zero].
  rewrite !all_chars_app, stamp_chars_zeros, stamp_chars_uint.
  destruct (i <? 0); reflexivity.
Qed.

(* ================================================================= *)
(** * Properties of the requests *)

Lemma fmtInteger_Itoa (i : Z) :
  Fmt.fmtInteger (Fmt.mkSpec false None None) i = Strconv.Itoa i.
Proof. destruct i; reflexivity. Qed.

(** X14. The message of a [PublishError] is its name, its code in decimal
    between [(code ] and [)], a colon and its message. *)
Theorem PublishError_Error_format (p : PublishError) :
  PublishError_Error p
  = Name p ++ " (code " ++ Strconv.Itoa (Code p) ++ "): " ++ Message p.
Proof.
  unfold PublishError_Error, Fmt.Sprintf. cbn -[Fmt.fmtInteger].
  now rewrite fmtInteger_Itoa, append_empty_r.
Qed.

(** ** [url.QueryEscape] *)

Lemma unhex_upperhex (c : ascii) :
  URL.unhex (URL.upperhex (N.shiftr (N_of_ascii c) 4))
            (URL.upperhex (N.land (N_of_ascii c) 15)) = c.
Proof. destruct c as [[|] [|] [|] [|] [|] [|] [|] [|]]; reflexivity. Qed.

Lemma upperhex_escaped (c : ascii) :
  URL.is_escaped_char (URL.upperhex (N.shiftr (N_of_ascii c) 4)) = true
  /\ URL.is_escaped_char (URL.upperhex (N.land (N_of_ascii c) 15)) = true.
Proof. destruct c as [[|] [|] [|] [|] [|] [|] [|] [|]]; split; reflexivity. Qed.

Lemma unescape_other (c : ascii) (r : string) :
  URL.shouldEscape c = false ->
  URL.unescape (String c r) = String c (URL.unescape r).
Proof.
  intros H. cbn [URL.unescape].
  destruct (Ascii.eqb_spec c "+") as [->|_]; [discriminate H|].
  destruct (Ascii.eqb_spec c "%") as [->|_]; [discriminate H|].
  reflexivity.
Qed.

Lemma unescape_percent (x y : ascii) (r : string) :
  URL.unescape (String "%" (String x (String y r)))
  = String (URL.unhex x y) (URL.unescape r).
Proof. reflexivity. Qed.

Lemma unescape_QueryEscape (s : string) : URL.unescape (URL.QueryEscape s) = s.
Proof.
  induction s as [|c s IH]; [reflexivity|].
  cbn [URL.QueryEscape]. destruct (URL.shouldEscape c) eqn:Hc.
  - destruct (Ascii.eqb_spec c " ") as [->|_].
    + cbn [URL.unescape]. cbn [Ascii.eqb Bool.eqb]. now rewrite IH.
    + now rewrite unescape_percent, unhex_upperhex, IH.
  - now rewrite unescape_other, IH.
Qed.

Lemma QueryEscape_chars (s : string) :
  all_chars URL.is_escaped_char (URL.QueryEscape s) = true.
Proof.
  induction s as [|c s IH]; [reflexivity|].
  cbn [URL.QueryEscape]. destruct (URL.shouldEscape c) eqn:Hc.
  - destruct (Ascii.eqb c " "); cbn [all_chars]; rewrite IH.
    + reflexivity.
    + destruct (upperhex_escaped c) as [-> ->]. reflexivity.
  - cbn [all_chars]. rewrite IH. unfold URL.is_escaped_char. now rewrite Hc.
Qed.

Lemma QueryEscape_no_char (s : string) (c : ascii) :
  URL.is_escaped_char c = false -> Strings.Index (URL.QueryEscape s) c = -1.
Proof. intros Hc. eapply all_chars_Index; [apply QueryEscape_chars|exact Hc]. Qed.

(** An escaped text is made of letters, digits, [-], [_], [.], [~], [%]
    and [+] only: whatever the argument, it brings no [&], [=], [?], [/],
    [#] or space into the URL. *)
Lemma QueryEscape_safe (s : string) :
  all_chars URL.is_escaped_char (URL.QueryEscape s) = true
  /\ Strings.Index (URL.QueryEscape s) "&" = -1
  /\ Strings.Index (URL.QueryEscape s) "=" = -1
  /\ Strings.Index (URL.QueryEscape s) "?" = -1
  /\ Strings.Index (URL.QueryEscape s) "/" = -1
  /\ Strings.Index (URL.QueryEscape s) "#" = -1
  /\ Strings.Index (URL.QueryEscape s) " " = -1.
Proof.
  split; [apply QueryEscape_chars|].
  repeat split; apply QueryEscape_no_char; reflexivity.
Qed.

(** Escaping loses nothing: different arguments are escaped to different
    texts. *)
Lemma QueryEscape_injective (a b : string) :
  URL.QueryEscape a = URL.QueryEscape b -> a = b.
Proof.
  intros H. rewrite <- (unescape_QueryEscape a), <- (unescape_QueryEscape b).
  now rewrite H.
Qed.

(** ** The URLs *)

Lemma SearchSong_url_eq (query trackName artistName albumName : string) :
  SearchSong_url query trackName artistName albumName
  = ("https://lrclib.net/api/search?q=" ++ URL.QueryEscape query
       ++ "track_name=" ++ URL.QueryEscape trackName)
    ++ String "&" (("artist_name=" ++ URL.QueryEscape artistName)
                   ++ String "&" ("album_name=" ++ URL.QueryEscape albumName)).
Proof.
  unfold SearchSong_url, Fmt.Sprintf. cbn. rewrite append_empty_r.
  repeat (rewrite ?append_assoc; cbn [append]). reflexivity.
Qed.

(** X15. In the URL of [SearchSong] no [&] stands between the query and
    [track_name=]: split at [&] the URL has three parts, not four, the
    first holding the escaped query, [track_name=] and the escaped track
    name in one. *)
Theorem SearchSong_url_parameters (query trackName artistName albumName : string) :
  Strings.Split (SearchSong_url query trackName artistName albumName) "&"
  = [ "https://lrclib.net/api/search?q=" ++ URL.QueryEscape query
        ++ "track_name=" ++ URL.QueryEscape trackName;
      "artist_name=" ++ URL.QueryEscape artistName;
      "album_name=" ++ URL.QueryEscape albumName ].
Proof.
  rewrite SearchSong_url_eq, !Split_app_sep.
  rewrite !Split_no_sep; [reflexivity| | |];
    repeat (apply Index_app_none; try reflexivity);
    apply QueryEscape_no_char; reflexivity.
Qed.

Lemma GetSong_url_eq (trackName artistName albumName : string)
      (duration : Time.Duration) (cached : bool) :
  GetSong_url trackName artistName albumName duration cached
  = ("https://lrclib.net/api/get" ++ (if cached then "-cached" else "")
       ++ "?track_name=" ++ URL.QueryEscape trackName)
    ++ String "&" (("artist_name=" ++ URL.QueryEscape artistName)
    ++ String "&" (("album_name=" ++ URL.QueryEscape albumName)
    ++ String "&" ("duration=" ++ Strconv.Itoa (Int64.quo duration Time.Second)))).
Proof.
  unfold GetSong_url, Fmt.Sprintf. cbn -[Fmt.fmtInteger Int64.quo].
  rewrite fmtInteger_Itoa, append_empty_r.
  repeat (rewrite ?append_assoc; cbn [append]). reflexivity.
Qed.

Lemma Itoa_no_ampersand (i : Z) : Strings.Index (Strconv.Itoa i) "&" = -1.
Proof.
  rewrite <- fmtInteger_Itoa.
  eapply all_chars_Index; [apply stamp_chars_fmtInteger|reflexivity].
Qed.

Lemma quo_Second (duration : Time.Duration) :
  Int64.in_range duration ->
  Int64.quo duration Time.Second = Z.quot duration 1000000000.
Proof.
  intros Hrange. unfold Int64.quo, Time.Second. apply wrap64_small.
  unfold Int64.in_range, Int64.min_int, Int64.max_int in *.
  destruct (Z_le_gt_dec 0 duration) as [Hpos|Hneg].
  - pose proof (Z.quot_pos duration 1000000000).
    destruct (Z.eq_dec duration 0) as [->|]; [cbn; lia|].
    pose proof (Z.quot_lt duration 1000000000). lia.
  - rewrite <- (Z.opp_involutive duration), Z.quot_opp_l by lia.
    pose proof (Z.quot_pos (- duration) 1000000000).
    pose proof (Z.quot_lt (- duration) 1000000000). lia.
Qed.

Lemma GetSong_url_split (trackName artistName albumName : string)
      (duration : Time.Duration) (cached : bool) :
  Strings.Split (GetSong_url trackName artistName albumName duration cached) "&"
  = [ "https://lrclib.net/api/get" ++ (if cached then "-cached" else "")
        ++ "?track_name=" ++ URL.QueryEscape trackName;
      "artist_name=" ++ URL.QueryEscape artistName;
      "album_name=" ++ URL.QueryEscape albumName;
      "duration=" ++ Strconv.Itoa (Int64.quo duration Time.Second) ].
Proof.
  rewrite GetSong_url_eq, !Split_app_sep.
  rewrite !Split_no_sep; [reflexivity| | | |];
    repeat (apply Index_app_none; try reflexivity);
    try (apply QueryEscape_no_char; reflexivity);
    try apply Itoa_no_ampersand.
  destruct cached; reflexivity.
Qed.

(** X16. The URL of [GetSong] names [/api/get], or [/api/get-cached] when
    [cached] is set, and has exactly the four parameters [track_name],
    [artist_name], [album_name] and [duration], whatever the arguments;
    the duration is sent in whole seconds, cut toward zero. *)
Theorem GetSong_url_parameters (trackName artistName albumName : string)
        (duration : Time.Duration) (cached : bool) :
  Int64.in_range duration ->
  Strings.Split (GetSong_url trackName artistName albumName duration cached) "&"
  = [ "https://lrclib.net/api/get" ++ (if cached then "-cached" else "")
        ++ "?track_name=" ++ URL.QueryEscape trackName;
      "artist_name=" ++ URL.QueryEscape artistName;
      "album_name=" ++ URL.QueryEscape albumName;
      "duration=" ++ Strconv.Itoa (Z.quot duration 1000000000) ].
Proof.
  intros Hrange. rewrite GetSong_url_split, quo_Second by assumption. reflexivity.
Qed.

Lemma GetSong_url_parameters_witness :
  Strings.Split (GetSong_url "a song" "an artist" "an album" 1900000000 true) "&"
  = [ "https://lrclib.net/api/get" ++ "-cached"
        ++ "?track_name=" ++ URL.QueryEscape "a song";
      "artist_name=" ++ URL.QueryEscape "an artist";
      "album_name=" ++ URL.QueryEscape "an album";
      "duration=" ++ Strconv.Itoa (Z.quot 1900000000 1000000000) ].
Proof.
  apply (GetSong_url_parameters "a song" "an artist" "an album" 1900000000 true).
  unfold Int64.in_range, Int64.min_int, Int64.max_int. lia.
Defined.

(** X17. The URL of [GetSongByID] is [https://lrclib.net/api/get/] and the
    escaped id: the id adds one path segment, never a second one, a query
    or a fragment. *)
Theorem GetSongByID_url_path (id : string) :
  GetSongByID_url id = "https://lrclib.net/api/get/" ++ URL.QueryEscape id
  /\ Strings.Split (GetSongByID_url id) "/"
     = ["https:"; ""; "lrclib.net"; "api"; "get"; URL.QueryEscape id]
  /\ Strings.Index (GetSongByID_url id) "?" = -1
  /\ Strings.Index (GetSongByID_url id) "#" = -1.
Proof.
  assert (GetSongByID_url id = "https://lrclib.net/api/get/" ++ URL.QueryEscape id) as Heq.
  { unfold GetSongByID_url, Fmt.Sprintf. cbn. now rewrite append_empty_r. }
  split; [exact Heq|]. rewrite Heq. split; [|split].
  - change ("https://lrclib.net/api/get/" ++ URL.QueryEscape id)
      with ("https:" ++ String "/" ("" ++ String "/" ("lrclib.net" ++ String "/"
            ("api" ++ String "/" ("get" ++ String "/" (URL.QueryEscape id)))))).
    rewrite !Split_app_sep.
    rewrite (Split_no_sep (URL.QueryEscape id))
      by (apply QueryEscape_no_char; reflexivity).
    reflexivity.
  - apply Index_app_none; [reflexivity|apply QueryEscape_no_char; reflexivity].
  - apply Index_app_none; [reflexivity|apply QueryEscape_no_char; reflexivity].
Qed.

Lemma Itoa_inj (i j : Z) : Strconv.Itoa i = Strconv.Itoa j -> i = j.
Proof.
  unfold Strconv.Itoa. intros H.
  assert (forall z, Z.to_int z <> Decimal.Pos Decimal.Nil
                    /\ Z.to_int z <> Decimal.Neg Decimal.Nil) as Hnil.
  { intros [|p|p]; cbn; split; try discriminate;
      intros [= Hp]; now apply (DecimalPos.Unsigned.to_uint_nonnil p). }
  apply DecimalZ.to_int_inj.
  pose proof (NilZero.isi (Z.to_int i) (proj1 (Hnil i)) (proj2 (Hnil i))) as Hi.
  pose proof (NilZero.isi (Z.to_int j) (proj1 (Hnil j)) (proj2 (Hnil j))) as Hj.
  rewrite H in Hi. congruence.
Qed.

(** X18. The URL of [GetSong] tells the requests apart: two calls with
    the same URL have the same track, artist and album names, the same
    [cached] flag and durations of the same number of whole seconds. *)
Theorem GetSong_url_injective
        (trackName artistName albumName trackName' artistName' albumName' : string)
        (duration duration' : Time.Duration) (cached cached' : bool) :
  Int64.in_range duration -> Int64.in_range duration' ->
  GetSong_url trackName artistName albumName duration cached
  = GetSong_url trackName' artistName' albumName' duration' cached' ->
  trackName = trackName' /\ artistName = artistName' /\ albumName = albumName'
  /\ cached = cached'
  /\ Z.quot duration 1000000000 = Z.quot duration' 1000000000.
Proof.
  intros Hd Hd' Hurl.
  apply (f_equal (fun u => Strings.Split u "&")) in Hurl.
  rewrite !GetSong_url_split, !quo_Second in Hurl by assumption.
  injection Hurl as Htrack Hartist Halbum Hduration.
  apply QueryEscape_injective in Hartist, Halbum. apply Itoa_inj in Hduration.
  destruct cached, cached'; cbn [append] in Htrack; try discriminate Htrack;
    injection Htrack as Htrack; apply QueryEscape_injective in Htrack; auto.
Qed.

Lemma GetSong_url_injective_witness :
  "a song" = "a song" /\ "an artist" = "an artist" /\ "an album" = "an album"
  /\ true = true
  /\ Z.quot 1900000000 1000000000 = Z.quot 1200000000 1000000000.
Proof.
  apply (GetSong_url_injective "a song" "an artist" "an album"
                               "a song" "an artist" "an album"
                               1900000000 1200000000 true true);
    try (unfold Int64.in_range, Int64.min_int, Int64.max_int; lia).
  vm_compute. reflexivity.
Defined.

(** X19. The URL of [GetSongByID] tells the ids apart: different ids are
    requested at different URLs. *)
Theorem GetSongByID_url_injective (id id' : string) :
  GetSongByID_url id = GetSongByID_url id' -> id = id'.
Proof.
  unfold GetSongByID_url, Fmt.Sprintf. cbn. rewrite !append_empty_r.
  intros H. injection H as H. now apply QueryEscape_injective.
Qed.

Lemma GetSongByID_url_injective_witness : "12/3" = "12/3".
Proof. apply (GetSongByID_url_injective "12/3" "12/3"). reflexivity. Defined.

(** ** Stamps without exactly one colon *)

(** What an iteration does once the stamp is stripped to [body]: with
    anything but two pieces around a colon it goes on to the next line. *)
Lemma parseLine_colons (index : nat) (body text : string) (a b : ascii) :
  a <> " "%char -> b <> " "%char -> Strings.Index body " " = -1 ->
  count_byte ":" body <> 1%nat ->
  parseLine index (String a (body ++ String b (String " " text))) = Ok None.
Proof.
  intros Ha Hb Hbody Hcolons.
  assert (String a (body ++ String b (String " " text))
          = String a (body ++ String b "") ++ String " " text) as ->.
  { cbn [append]. now rewrite append_assoc. }
  assert (Strings.Index (String a (body ++ String b "")) " " = -1) as Hstamp.
  { apply Index_cons_other; [assumption|].
    apply Index_app_none; [assumption|]. now apply Index_cons_other. }
  assert (len (String a (body ++ String b "")) = len body + 2) as Hlen.
  { unfold len. cbn [String.length]. rewrite length_append. cbn [String.length]. lia. }
  unfold parseLine. rewrite (Index_app_sep _ text " " Hstamp).
  assert (0 <= len body) as Hpos by (unfold len; lia).
  destruct (Z.eqb_spec (len (String a (body ++ String b ""))) (-1)) as [|_]; [lia|].
  rewrite slice_prefix, slice_suffix
    by (unfold len in *; rewrite length_append; lia).
  rewrite !to_nat_len, take_app, drop_app. cbn [bind].
  assert (slice (String a (body ++ String b "")) 1
                (len (String a (body ++ String b "")) - 1) = Ok body) as ->.
  { unfold slice. rewrite Hlen.
    replace ((0 <=? 1) && (1 <=? len body + 2 - 1) && (len body + 2 - 1 <=? len body + 2))
      with true by (symmetry; rewrite !andb_true_iff, !Z.leb_le; lia).
    replace (Z.to_nat (len body + 2 - 1 - 1)) with (String.length body)
      by (unfold len; lia).
    change (Z.to_nat 1) with 1%nat. cbn [drop]. now rewrite take_app. }
  cbn [bind]. pose proof (length_Split body ":") as Hsplit.
  destruct (Strings.Split body ":") as [|sep0 [|sep1 [|sep2 rest]]];
    cbn [List.length] in Hsplit; try reflexivity.
  exfalso. apply Hcolons. lia.
Qed.

(** X20. A stamp is read only as minutes, one colon and seconds: a line
    whose stamp holds no colon, or more than one (hours, minutes and
    seconds, say), is skipped, and its slot keeps the zero entry. *)
Theorem ParseSyncedLyrics_skips_other_stamps
        (str : string) (out : list SyncedLyric) (i : nat) (body text : string) :
  ParseSyncedLyrics str = Ok out ->
  nth_error (Strings.Split str newline_char) i = Some ("[" ++ body ++ "] " ++ text) ->
  Strings.Index body " " = -1 ->
  count_byte ":" body <> 1%nat ->
  nth_error out i = Some zeroSyncedLyric.
Proof.
  intros Hrun Hline Hbody Hcolons.
  assert (parseLine i ("[" ++ body ++ "] " ++ text) = Ok None) as Hskip.
  { cbn [append]. apply parseLine_colons; try assumption; discriminate. }
  destruct (ParseSyncedLyrics_slot _ _ _ _ Hrun Hline) as [[_ Hz]|(e & Hp & _)];
    [exact Hz|congruence].
Qed.

Lemma ParseSyncedLyrics_skips_other_stamps_witness :
  nth_error [zeroSyncedLyric; mkSyncedLyric 1500000000 " b" 1] 0 = Some zeroSyncedLyric.
Proof.
  apply (ParseSyncedLyrics_skips_other_stamps
           ("[1:02:03.00] a" ++ String newline_char "[0:01.50] b")
           [zeroSyncedLyric; mkSyncedLyric 1500000000 " b" 1] 0 "1:02:03.00" "a").
  - vm_compute. reflexivity.
  - reflexivity.
  - reflexivity.
  - cbn. discriminate.
Defined.
